(** * esp32-c3-nets-lib: packet container and transport dispatch engine

    A shallow embedding of [include/net/packet.h], [src/transport.cpp],
    [src/uart.cpp] and [src/usb_jtag.cpp].

    Conventions.
    - C++ integers are [Z]; every narrowing conversion the source performs is
      written out with [to_u16], [to_u32] or [to_u64].
    - A [const] member function is a function of the object; a mutating one
      returns the new object next to its result.
    - Mutexes and logging are left out: the model is sequential, one call at
      a time.
    - A callback invocation is recorded as an [Event] of the trace a function
      returns. *)

From Stdlib Require Import ZArith List Bool Lia.
From Stdlib Require Import Init.Byte.
Import ListNotations.

Local Open Scope Z_scope.

Set Implicit Arguments.

(** ** Integer conversions *)

Definition to_u16 (z : Z) : Z := z mod 2 ^ 16.
Definition to_u32 (z : Z) : Z := z mod 2 ^ 32.
Definition to_u64 (z : Z) : Z := z mod 2 ^ 64.

(** ** esp_err_t

    The values of ESP-IDF's [esp_err.h], which the repository includes but
    does not contain. *)

Definition esp_err_t := Z.

Definition ESP_OK : esp_err_t := 0.
Definition ESP_FAIL : esp_err_t := -1.
Definition ESP_ERR_NO_MEM : esp_err_t := 0x101.
Definition ESP_ERR_INVALID_ARG : esp_err_t := 0x102.
Definition ESP_ERR_INVALID_STATE : esp_err_t := 0x103.
Definition ESP_ERR_TIMEOUT : esp_err_t := 0x107.

(** ** packet.h *)

Definition MAX_MTU : Z := 517.

(** [struct Packet]: [uint16_t id], [uint16_t size],
    [std::array<uint8_t, MAX_MTU> buffer]. *)
Record Packet : Type := mkPacket {
  id : Z;
  size : Z;
  buffer : list byte
}.

(** [Packet packet{}]: the default member initialisers. *)
Definition Packet_zero : Packet :=
  {| id := 0; size := 0; buffer := repeat x00 (Z.to_nat MAX_MTU) |}.

(** [bool isValid() const noexcept] *)
Definition isValid (p : Packet) : bool :=
  (size p >? 0) && (size p <=? MAX_MTU).

(** [void clear() noexcept] *)
Definition clear (p : Packet) : Packet :=
  {| id := 0; size := 0; buffer := repeat x00 (length (buffer p)) |}.

(** [std::memcpy(dst, src, n)] on byte lists: the first [n] bytes of [dst]
    are replaced by the first [n] bytes of [src].  C leaves a read past the
    end of [src] undefined; the model is only used with [n <= length src]. *)
Definition memcpy (dst src : list byte) (n : nat) : list byte :=
  firstn n src ++ skipn n dst.

(** [bool setPayload(const uint8_t* data, const size_t len) noexcept].
    A null [data] is [None]; otherwise [data] is the memory it points to. *)
Definition setPayload (data : option (list byte)) (len : Z) (p : Packet)
  : bool * Packet :=
  match data with
  | None => (false, p)
  | Some d =>
      if (len =? 0) || (len >? MAX_MTU) then (false, p)
      else (true, {| id := id p;
                     size := to_u16 len;
                     buffer := memcpy (buffer p) d (Z.to_nat len) |})
  end.

(** ** Collaborators outside the repository

    [esp32_c3::objects::BufferedQueue], [Thread] and [Callback] come from the
    [esp32_c3_objects] library.  The repository only calls them, so they are
    modelled from what the specification says about them. *)

Module BufferedQueue.

(** Modelled from the spec: [BufferedQueue<Packet, N>] is not in the
    repository.  §3: fixed capacity, FIFO, insertion order preserved, entries
    held by copy. *)
Definition t : Type := list Packet.

(** Modelled from the spec: §4.2 [push(packet, timeout)] with [timeout = 0]
    appends, or fails at once when the queue is full. *)
Definition send (capacity : nat) (item : Packet) (q : t) : bool * t :=
  if (length q <? capacity)%nat then (true, q ++ [item]) else (false, q).

(** Modelled from the spec: §4.2 [pop(timeout)] removes and returns the
    head, or nothing when the queue is empty. *)
Definition receive (q : t) : option (Packet * t) :=
  match q with
  | [] => None
  | item :: q' => Some (item, q')
  end.

(** Modelled from the spec: §4.2 [size()]. *)
Definition waiting (q : t) : Z := Z.of_nat (length q).

(** Modelled from the spec: §4.3 [stop()] drains the queue, which the source
    does by [mSendQueue.reset()]. *)
Definition reset (q : t) : t := [].

End BufferedQueue.

Module Thread.

(** Modelled from the spec: [Thread::State] is not in the repository; the
    source only names [NOT_RUNNING].  §4.3: the dispatch loop either runs or
    does not. *)
Inductive State : Type := NOT_RUNNING | RUNNING.

(** Modelled from the spec: §4.3 [start()] is idempotent, starts the
    dispatch loop and returns true if it is already running.  [spawned] says
    whether the operating system could create the worker. *)
Definition quickStart (spawned : bool) (s : State) : bool * State :=
  match s with
  | RUNNING => (true, RUNNING)
  | NOT_RUNNING => if spawned then (true, RUNNING) else (false, NOT_RUNNING)
  end.

(** Modelled from the spec: §4.3 [stop()] halts the dispatch loop. *)
Definition stop (s : State) : State := NOT_RUNNING.

End Thread.

(** Modelled from the spec: [Callback<Packet>] is not in the repository.
    §4.3: the receive handler gets the packet and a reply function; the
    handler is the list of packets it passes to that reply function. *)
Definition PacketCallback : Type := Packet -> list Packet.

(** ** transport.h, transport.cpp *)

Definition SEND_INTERVAL_US : Z := 20 * 1000.
Definition MAX_QUEUE_SIZE : nat := 16.

(** What the engine does to its collaborators:
    - [EvSendImpl packet ret]: [sendImpl(packet)] was called and returned
      [ret];
    - [EvError packet err]: [mErrorCallback(packet, err)] was called;
    - [EvData packet]: [mDataCallback->invoke(packet, reply)] was called. *)
Inductive Event : Type :=
| EvSendImpl (packet : Packet) (ret : esp_err_t)
| EvError (packet : Packet) (err : esp_err_t)
| EvData (packet : Packet).

(** [class Transport], with the members of the derived class in [derived].
    [mErrorCallback] says whether the [std::function] holds a target; what
    the target does is its own business, the call is an [EvError]. *)
Record Transport (D : Type) : Type := mkTransport {
  mThread : Thread.State;
  mDataCallback : option PacketCallback;
  mErrorCallback : bool;
  mSendQueue : BufferedQueue.t;
  mNextSendTime : Z;
  mIsInitialized : bool;
  derived : D
}.

Definition set_mThread {D} (s : Thread.State) (t : Transport D) : Transport D :=
  mkTransport s (mDataCallback t) (mErrorCallback t) (mSendQueue t)
              (mNextSendTime t) (mIsInitialized t) (derived t).

Definition set_mSendQueue {D} (q : BufferedQueue.t) (t : Transport D)
  : Transport D :=
  mkTransport (mThread t) (mDataCallback t) (mErrorCallback t) q
              (mNextSendTime t) (mIsInitialized t) (derived t).

Definition set_mNextSendTime {D} (time : Z) (t : Transport D) : Transport D :=
  mkTransport (mThread t) (mDataCallback t) (mErrorCallback t) (mSendQueue t)
              time (mIsInitialized t) (derived t).

Definition set_derived {D} (d : D) (t : Transport D) : Transport D :=
  mkTransport (mThread t) (mDataCallback t) (mErrorCallback t) (mSendQueue t)
              (mNextSendTime t) (mIsInitialized t) d.

(** [Transport::Transport(tag)] and the default member initialisers. *)
Definition Transport_new {D} (d : D) : Transport D :=
  {| mThread := Thread.NOT_RUNNING;
     mDataCallback := None;
     mErrorCallback := false;
     mSendQueue := [];
     mNextSendTime := 0;
     mIsInitialized := false;
     derived := d |}.

(** [void Transport::bind(dataCallback, errorCallback)] *)
Definition bind {D} (dataCallback : option PacketCallback)
  (errorCallback : bool) (t : Transport D) : Transport D :=
  mkTransport (mThread t) dataCallback errorCallback (mSendQueue t)
              (mNextSendTime t) (mIsInitialized t) (derived t).

(** [bool Transport::start()] *)
Definition start {D} (spawned : bool) (t : Transport D) : bool * Transport D :=
  let (ok, s) := Thread.quickStart spawned (mThread t) in
  (ok, set_mThread s t).

(** [void Transport::stop()] *)
Definition stop {D} (t : Transport D) : Transport D :=
  let t := set_mSendQueue (BufferedQueue.reset (mSendQueue t)) t in
  set_mThread (Thread.stop (mThread t)) t.

(** [bool Transport::isInitialized() const noexcept] *)
Definition isInitialized {D} (t : Transport D) : bool :=
  mIsInitialized t &&
  match mThread t with Thread.NOT_RUNNING => false | _ => true end.

(** [void Transport::setInitialized(bool value)] *)
Definition setInitialized {D} (value : bool) (t : Transport D) : Transport D :=
  mkTransport (mThread t) (mDataCallback t) (mErrorCallback t) (mSendQueue t)
              (mNextSendTime t) value (derived t).

(** [esp_err_t Transport::send(const Packet& packet)] *)
Definition send {D} (packet : Packet) (t : Transport D)
  : esp_err_t * Transport D :=
  if negb (isInitialized t) || negb (isValid packet) then
    (ESP_ERR_INVALID_ARG, t)
  else
    let (ok, q) := BufferedQueue.send MAX_QUEUE_SIZE packet (mSendQueue t) in
    (if ok then ESP_OK else ESP_ERR_INVALID_STATE, set_mSendQueue q t).

(** [size_t Transport::getQueueSize() const] *)
Definition getQueueSize {D} (t : Transport D) : Z :=
  BufferedQueue.waiting (mSendQueue t).

(** The [while (mSendQueue.receive(packet, 0)) count++;] of [clearQueue];
    every iteration takes the head off, so the loop is a recursion on the
    queue. *)
Fixpoint clearQueue_loop (q : BufferedQueue.t) (count : Z)
  : Z * BufferedQueue.t :=
  match q with
  | [] => (count, q)
  | _ :: q' => clearQueue_loop q' (to_u32 (count + 1))
  end.

(** [size_t Transport::clearQueue()] *)
Definition clearQueue {D} (t : Transport D) : Z * Transport D :=
  let (count, q) := clearQueue_loop (mSendQueue t) 0 in
  (count, set_mSendQueue q t).

(** [static bool Transport::isTemporary(esp_err_t ret) noexcept] *)
Definition isTemporary (ret : esp_err_t) : bool :=
  (ret =? ESP_ERR_NO_MEM) || (ret =? ESP_ERR_INVALID_STATE)
  || (ret =? ESP_ERR_TIMEOUT).

(** [void Transport::handleSendError(const Packet& packet, esp_err_t err)] *)
Definition handleSendError {D} (packet : Packet) (err : esp_err_t)
  (t : Transport D) : Transport D * list Event :=
  let evs := if mErrorCallback t then [EvError packet err] else [] in
  if isTemporary err then
    let (_, q) := BufferedQueue.send MAX_QUEUE_SIZE packet (mSendQueue t) in
    (set_mSendQueue q t, evs)
  else
    (t, evs).

(** The virtual interface of [Transport].  [sendImpl] takes the packet by
    non-const reference, so it returns the packet as it left it, next to the
    result and the members of the derived class.  [processReceivedData]
    returns the packets it handed to the receive handler. *)
Class Adapter (D : Type) : Type := {
  getMtuSize : Transport D -> Z;
  sendImpl : Transport D -> Packet -> esp_err_t * Packet * D;
  processReceivedData : Transport D -> Transport D * list Packet
}.

(** [virtual void processReceivedData() {}] of the base class. *)
Definition processReceivedData_default {D} (t : Transport D)
  : Transport D * list Packet := (t, []).

(** [void Transport::processSendQueue()].  [now] is what
    [esp_timer_get_time()] returns on entry and [now_sent] what it returns
    after [sendImpl]; both are [int64_t], [mNextSendTime] is [uint64_t]. *)
Definition processSendQueue {D} `{Adapter D} (now now_sent : Z)
  (t : Transport D) : Transport D * list Event :=
  if mNextSendTime t >? to_u64 now then (t, [])
  else
    match BufferedQueue.receive (mSendQueue t) with
    | None => (t, [])
    | Some (packet, q) =>
        let t := set_mSendQueue q t in
        let '(ret, packet', d) := sendImpl t packet in
        let t := set_derived d t in
        if ret =? ESP_OK then
          (set_mNextSendTime (to_u64 (now_sent + SEND_INTERVAL_US)) t,
           [EvSendImpl packet ret])
        else
          let (t, evs) := handleSendError packet' ret t in
          (t, EvSendImpl packet ret :: evs)
    end.

(** The two readings of the clock in one iteration of the dispatch loop. *)
Record Tick : Type := mkTick { now : Z; now_sent : Z }.

(** The [loop] lambda of [Transport::start]. *)
Definition loop {D} `{Adapter D} (k : Tick) (t : Transport D)
  : Transport D * list Event :=
  let (t, evs1) := processSendQueue (now k) (now_sent k) t in
  let (t, received) := processReceivedData t in
  (t, evs1 ++ map EvData received).

(** The worker thread: one [loop] per tick for as long as the thread runs.
    The result pairs every tick with what happened in it. *)
Fixpoint run {D} `{Adapter D} (ks : list Tick) (t : Transport D)
  : Transport D * list (Tick * list Event) :=
  match ks with
  | [] => (t, [])
  | k :: ks' =>
      match mThread t with
      | Thread.NOT_RUNNING => (t, [])
      | Thread.RUNNING =>
          let (t1, evs) := loop k t in
          let (t2, log) := run ks' t1 in
          (t2, (k, evs) :: log)
      end
  end.

(** Successive [send] calls; the results in call order. *)
Fixpoint send_all {D} (packets : list Packet) (t : Transport D)
  : list esp_err_t * Transport D :=
  match packets with
  | [] => ([], t)
  | packet :: rest =>
      let (ret, t1) := send packet t in
      let (rets, t2) := send_all rest t1 in
      (ret :: rets, t2)
  end.

(** Modelled from the spec: [Callback::invoke] is not in the repository.
    §4.3: the bound receive handler is invoked with the packet and a reply
    function that calls [send]; both serial transports write
    [mDataCallback->invoke(packet, [&](const Packet& result) { send(result); })]. *)
Definition invoke {D} (cb : PacketCallback) (packet : Packet)
  (t : Transport D) : Transport D * list Packet :=
  (fold_left (fun t result => snd (send result t)) (cb packet) t, [packet]).

(** [std::span(buffer.data(), n)], for [n] within the buffer. *)
Definition span (buffer : list byte) (n : Z) : list byte :=
  firstn (Z.to_nat n) buffer.

(** ** uart.h, uart.cpp *)

Module Uart.

Inductive SerialType : Type := UART0 | UART1.

(** The calls into ESP-IDF's UART driver ([driver/uart.h], outside the
    repository), over the state [Hw] of the peripheral.  Each returns the
    [int] or [esp_err_t] of the C function, what it stored through its
    pointer argument, and the new state. *)
Class Driver (Hw : Type) : Type := {
  uart_write_bytes : Z -> list byte -> Z -> Hw -> Z * Hw;
  uart_read_bytes : Z -> list byte -> Z -> Hw -> Z * list byte * Hw;
  uart_get_buffered_data_len : Z -> Hw -> esp_err_t * Z * Hw
}.

(** The members [class Uart] adds to [Transport], and the peripheral. *)
Record t (Hw : Type) : Type := mk {
  mType : SerialType;
  mUartNum : Z;
  hw : Hw
}.

Definition set_hw {Hw} (h : Hw) (u : t Hw) : t Hw :=
  mk (mType u) (mUartNum u) h.

(** [size_t Uart::available() const noexcept] *)
Definition available {Hw} `{Driver Hw} (tr : Transport (t Hw)) : Z * Hw :=
  let u := derived tr in
  if negb (isInitialized tr) then (0, hw u)
  else
    let '(_, avail, h) := uart_get_buffered_data_len (mUartNum u) (hw u) in
    (avail, h).

(** [size_t Uart::read(std::span<uint8_t> buffer) const noexcept] *)
Definition read {Hw} `{Driver Hw} (tr : Transport (t Hw))
  (buffer : list byte) : Z * list byte * Hw :=
  let u := derived tr in
  if negb (isInitialized tr) || (length buffer =? 0)%nat then
    (0, buffer, hw u)
  else
    let '(len, buffer', h) :=
      uart_read_bytes (mUartNum u) buffer (Z.of_nat (length buffer)) (hw u) in
    if len <? 0 then (0, buffer', h) else (to_u32 len, buffer', h).

(** [size_t Uart::write(std::span<const uint8_t> data) const noexcept] *)
Definition write {Hw} `{Driver Hw} (tr : Transport (t Hw))
  (data : list byte) : Z * Hw :=
  let u := derived tr in
  if negb (isInitialized tr) || (length data =? 0)%nat then (0, hw u)
  else
    let (len, h) :=
      uart_write_bytes (mUartNum u) data (Z.of_nat (length data)) (hw u) in
    if len <? 0 then (0, h) else (to_u32 len, h).

(** [esp_err_t Uart::sendImpl(Packet& packet)] *)
Definition sendImpl {Hw} `{Driver Hw} (tr : Transport (t Hw))
  (packet : Packet) : esp_err_t * Packet * t Hw :=
  let (written, h) := write tr (span (buffer packet) (size packet)) in
  if negb (written =? size packet) then
    (ESP_FAIL, packet, set_hw h (derived tr))
  else
    (ESP_OK, packet, set_hw h (derived tr)).

(** [void Uart::processReceivedData()] *)
Definition processReceivedData {Hw} `{Driver Hw} (tr : Transport (t Hw))
  : Transport (t Hw) * list Packet :=
  match mDataCallback tr with
  | None => (tr, [])
  | Some cb =>
      let (avail, h) := available tr in
      let tr := set_derived (set_hw h (derived tr)) tr in
      if avail =? 0 then (tr, [])
      else
        let packet := Packet_zero in
        let '(n, buffer', h) := read tr (buffer packet) in
        let tr := set_derived (set_hw h (derived tr)) tr in
        let packet :=
          {| id := id packet; size := to_u16 n; buffer := buffer' |} in
        if size packet >? 0 then invoke cb packet tr else (tr, [])
  end.

(** [size_t Uart::getMtuSize() const noexcept] *)
Definition getMtuSize {Hw} (tr : Transport (t Hw)) : Z := MAX_MTU.

End Uart.

#[export] Instance Uart_Adapter {Hw} `{Uart.Driver Hw} : Adapter (Uart.t Hw) :=
  {| getMtuSize := Uart.getMtuSize;
     sendImpl := Uart.sendImpl;
     processReceivedData := Uart.processReceivedData |}.

(** ** usb_jtag.h, usb_jtag.cpp *)

Module UsbJtag.

(** The calls into ESP-IDF's USB-serial-JTAG driver
    ([driver/usb_serial_jtag.h], outside the repository), over the state
    [Hw] of the peripheral. *)
Class Driver (Hw : Type) : Type := {
  usb_serial_jtag_write_bytes : list byte -> Z -> Hw -> Z * Hw;
  usb_serial_jtag_read_bytes : list byte -> Z -> Hw -> Z * list byte * Hw
}.

(** [class UsbJtag] adds no members to [Transport]; only the peripheral is
    carried along. *)
Record t (Hw : Type) : Type := mk { hw : Hw }.

(** [size_t UsbJtag::read(std::span<uint8_t> buffer) const noexcept] *)
Definition read {Hw} `{Driver Hw} (tr : Transport (t Hw))
  (buffer : list byte) : Z * list byte * Hw :=
  let u := derived tr in
  if negb (isInitialized tr) || (length buffer =? 0)%nat then
    (0, buffer, hw u)
  else
    let '(len, buffer', h) :=
      usb_serial_jtag_read_bytes buffer (Z.of_nat (length buffer)) (hw u) in
    if len <? 0 then (0, buffer', h) else (to_u32 len, buffer', h).

(** [size_t UsbJtag::write(std::span<const uint8_t> data) const noexcept] *)
Definition write {Hw} `{Driver Hw} (tr : Transport (t Hw))
  (data : list byte) : Z * Hw :=
  let u := derived tr in
  if negb (isInitialized tr) || (length data =? 0)%nat then (0, hw u)
  else
    let (len, h) :=
      usb_serial_jtag_write_bytes data (Z.of_nat (length data)) (hw u) in
    if len <? 0 then (0, h) else (to_u32 len, h).

(** [esp_err_t UsbJtag::sendImpl(Packet& packet)] *)
Definition sendImpl {Hw} `{Driver Hw} (tr : Transport (t Hw))
  (packet : Packet) : esp_err_t * Packet * t Hw :=
  let (written, h) := write tr (span (buffer packet) (size packet)) in
  if negb (written =? size packet) then (ESP_FAIL, packet, mk h)
  else (ESP_OK, packet, mk h).

(** [void UsbJtag::processReceivedData()] *)
Definition processReceivedData {Hw} `{Driver Hw} (tr : Transport (t Hw))
  : Transport (t Hw) * list Packet :=
  match mDataCallback tr with
  | None => (tr, [])
  | Some cb =>
      let packet := Packet_zero in
      let '(n, buffer', h) := read tr (buffer packet) in
      let tr := set_derived (mk h) tr in
      let packet :=
        {| id := id packet; size := to_u16 n; buffer := buffer' |} in
      if size packet >? 0 then invoke cb packet tr else (tr, [])
  end.

(** [size_t UsbJtag::getMtuSize() const noexcept] *)
Definition getMtuSize {Hw} (tr : Transport (t Hw)) : Z := MAX_MTU.

End UsbJtag.

#[export] Instance UsbJtag_Adapter {Hw} `{UsbJtag.Driver Hw}
  : Adapter (UsbJtag.t Hw) :=
  {| getMtuSize := UsbJtag.getMtuSize;
     sendImpl := UsbJtag.sendImpl;
     processReceivedData := UsbJtag.processReceivedData |}.

(** ** The mock adapter of the specification's test scenarios *)

Module Mock.

(** Modelled from the spec: §8 speaks of a mock adapter that returns given
    outcomes; the repository has none.  Its state is the outcomes still to
    be returned, and it succeeds once they are used up. *)
Definition t : Type := list esp_err_t.

(** Modelled from the spec: §8, the mock's [sendImpl] returns the next
    outcome and leaves the packet alone. *)
Definition sendImpl (tr : Transport t) (packet : Packet)
  : esp_err_t * Packet * t :=
  match derived tr with
  | [] => (ESP_OK, packet, [])
  | ret :: rest => (ret, packet, rest)
  end.

End Mock.

#[export] Instance Mock_Adapter : Adapter Mock.t :=
  {| getMtuSize := fun _ => MAX_MTU;
     sendImpl := Mock.sendImpl;
     processReceivedData := @processReceivedData_default Mock.t |}.

(** ** Reading a trace *)

(** The [sendImpl] calls of a trace: packet passed and outcome returned. *)
Definition sendImpl_calls (evs : list Event) : list (Packet * esp_err_t) :=
  flat_map (fun e => match e with
                     | EvSendImpl p ret => [(p, ret)]
                     | _ => []
                     end) evs.

(** The calls of the error handler in a trace. *)
Definition error_reports (evs : list Event) : list (Packet * esp_err_t) :=
  flat_map (fun e => match e with
                     | EvError p err => [(p, err)]
                     | _ => []
                     end) evs.

(** The packets handed to the receive handler in a trace. *)
Definition delivered (evs : list Event) : list Packet :=
  flat_map (fun e => match e with
                     | EvData p => [p]
                     | _ => []
                     end) evs.

(** All events of a run, in order. *)
Definition events (log : list (Tick * list Event)) : list Event :=
  flat_map snd log.

(** A clock that never runs backwards: every reading is at least [since]
    and at least the one before it, and small enough for
    [esp_timer_get_time() + SEND_INTERVAL_US] not to overflow [int64_t]. *)
Fixpoint clock_ok (since : Z) (ks : list Tick) : Prop :=
  match ks with
  | [] => True
  | k :: ks' =>
      since <= now k /\ now k <= now_sent k
      /\ now_sent k + SEND_INTERVAL_US < 2 ^ 63
      /\ clock_ok (now_sent k) ks'
  end.

(** ** Scenarios *)

(** A valid one-byte packet. *)
Definition example_packet : Packet :=
  {| id := 0; size := 1; buffer := repeat x00 517 |}.

(** A second valid packet, to tell queue entries apart. *)
Definition other_packet : Packet :=
  {| id := 0; size := 2; buffer := repeat x01 517 |}.

(** A transport over the mock adapter, brought up through the public
    interface: constructed, marked initialised as a channel's constructor
    does, bound (with or without an error handler), started, and given
    [packets] through [send]. *)
Definition mock_transport (script : Mock.t) (errorCallback : bool)
  (packets : list Packet) : Transport Mock.t :=
  let t := setInitialized true (Transport_new script) in
  let t := bind None errorCallback t in
  let t := snd (start true t) in
  snd (send_all packets t).

(** A stand-in for the serial hardware in the examples: the driver takes at
    most [tx_room] bytes per write, and [rx_pending] are the bytes waiting
    to be read. *)
Record Wire : Type := mkWire { tx_room : Z; rx_pending : list byte }.

(** Writing to the stand-in: the number of bytes taken. *)
Definition wire_write (data : list byte) (w : Wire) : Z * Wire :=
  (Z.min (tx_room w) (Z.of_nat (length data)), w).

(** Reading from the stand-in: up to [n] pending bytes go to the front of
    the buffer. *)
Definition wire_read (buffer : list byte) (n : Z) (w : Wire)
  : Z * list byte * Wire :=
  let got := firstn (Z.to_nat n) (rx_pending w) in
  (Z.of_nat (length got), memcpy buffer got (length got),
   mkWire (tx_room w) (skipn (Z.to_nat n) (rx_pending w))).

#[export] Instance Wire_Uart : Uart.Driver Wire :=
  {| Uart.uart_write_bytes := fun _ data _ => wire_write data;
     Uart.uart_read_bytes := fun _ => wire_read;
     Uart.uart_get_buffered_data_len :=
       fun _ w => (ESP_OK, Z.of_nat (length (rx_pending w)), w) |}.

#[export] Instance Wire_UsbJtag : UsbJtag.Driver Wire :=
  {| UsbJtag.usb_serial_jtag_write_bytes := fun data _ => wire_write data;
     UsbJtag.usb_serial_jtag_read_bytes := wire_read |}.

(** A UART transport brought up through the public interface. *)
Definition uart_transport (w : Wire) (cb : option PacketCallback)
  (packets : list Packet) : Transport (Uart.t Wire) :=
  let t := setInitialized true (Transport_new (Uart.mk Uart.UART1 1 w)) in
  let t := bind cb true t in
  let t := snd (start true t) in
  snd (send_all packets t).

(** A USB-JTAG transport brought up through the public interface. *)
Definition usb_transport (w : Wire) (cb : option PacketCallback)
  (packets : list Packet) : Transport (UsbJtag.t Wire) :=
  let t := setInitialized true (Transport_new (UsbJtag.mk w)) in
  let t := bind cb true t in
  let t := snd (start true t) in
  snd (send_all packets t).

(** ** Construction and destruction *)

(** [Transport::~Transport()] *)
Definition Transport_dtor {D} (t : Transport D) : Transport D :=
  let t := set_mThread (Thread.stop (mThread t)) t in
  mkTransport (mThread t) None (mErrorCallback t) (mSendQueue t)
              (mNextSendTime t) (mIsInitialized t) (derived t).

(** [UART_NUM_0], [UART_NUM_1] and [UART_PIN_NO_CHANGE] of ESP-IDF. *)
Definition UART_NUM_0 : Z := 0.
Definition UART_NUM_1 : Z := 1.
Definition UART_PIN_NO_CHANGE : Z := -1.

(** The set-up calls of ESP-IDF's UART driver ([driver/uart.h], outside the
    repository): each returns its [esp_err_t] (and what it stored through a
    pointer) and the new state of the peripheral.  [uart_driver_install]
    takes the port, the two buffer sizes, the queue size and the interrupt
    flags; its queue handle is always [nullptr] here. *)
Class UartSetup (Hw : Type) : Type := {
  uart_config_t : Type;
  uart_param_config : Z -> uart_config_t -> Hw -> esp_err_t * Hw;
  uart_set_pin : Z -> Z -> Z -> Z -> Z -> Hw -> esp_err_t * Hw;
  uart_driver_install : Z -> Z -> Z -> Z -> Z -> Hw -> esp_err_t * Hw;
  uart_driver_delete : Z -> Hw -> esp_err_t * Hw;
  uart_get_baudrate : Z -> Hw -> esp_err_t * Z * Hw
}.

(** The tail of [Uart::Uart]: [uart_driver_install] and, if it succeeds,
    [setInitialized(true)]. *)
Definition Uart_ctor_install {Hw} `{UartSetup Hw} (type : Uart.SerialType)
  (mUartNum : Z) (h : Hw) : Transport (Uart.t Hw) :=
  let (ret, h) := uart_driver_install mUartNum MAX_MTU MAX_MTU 0 0 h in
  if negb (ret =? ESP_OK) then Transport_new (Uart.mk type mUartNum h)
  else setInitialized true (Transport_new (Uart.mk type mUartNum h)).

(** [Uart::Uart(type, config, rxPin, txPin)], on a peripheral in state
    [h]. *)
Definition Uart_ctor {Hw} `{UartSetup Hw} (type : Uart.SerialType)
  (config : uart_config_t) (rxPin txPin : option Z) (h : Hw)
  : Transport (Uart.t Hw) :=
  let mUartNum :=
    match type with Uart.UART0 => UART_NUM_0 | Uart.UART1 => UART_NUM_1 end in
  let (ret, h) := uart_param_config mUartNum config h in
  if negb (ret =? ESP_OK) then Transport_new (Uart.mk type mUartNum h)
  else
    match rxPin, txPin with
    | Some rx, Some tx =>
        let (ret, h) :=
          uart_set_pin mUartNum tx rx UART_PIN_NO_CHANGE UART_PIN_NO_CHANGE h in
        if negb (ret =? ESP_OK) then Transport_new (Uart.mk type mUartNum h)
        else Uart_ctor_install type mUartNum h
    | _, _ => Uart_ctor_install type mUartNum h
    end.

(** [Uart::~Uart()], followed by the base class destructor. *)
Definition Uart_dtor {Hw} `{UartSetup Hw} (tr : Transport (Uart.t Hw))
  : Transport (Uart.t Hw) :=
  let u := derived tr in
  if negb (isInitialized tr) then Transport_dtor tr
  else
    let (_, h) := uart_driver_delete (Uart.mUartNum u) (Uart.hw u) in
    Transport_dtor (set_derived (Uart.set_hw h u) tr).

(** [uint32_t Uart::baudRate() const noexcept] *)
Definition Uart_baudRate {Hw} `{UartSetup Hw} (tr : Transport (Uart.t Hw))
  : Z * Hw :=
  let u := derived tr in
  if negb (isInitialized tr) then (0, Uart.hw u)
  else
    let '(_, rate, h) := uart_get_baudrate (Uart.mUartNum u) (Uart.hw u) in
    (rate, h).

(** [USB_JTAG_TX_BUFFER_SIZE] and [USB_JTAG_RX_BUFFER_SIZE] of
    [class UsbJtag]. *)
Definition USB_JTAG_TX_BUFFER_SIZE : Z := 1024.
Definition USB_JTAG_RX_BUFFER_SIZE : Z := 1536.

(** The set-up calls of ESP-IDF's USB-serial-JTAG driver (outside the
    repository); [usb_serial_jtag_driver_install] takes the two buffer sizes
    of its configuration. *)
Class UsbJtagSetup (Hw : Type) : Type := {
  usb_serial_jtag_driver_install : Z -> Z -> Hw -> esp_err_t * Hw;
  usb_serial_jtag_driver_uninstall : Hw -> esp_err_t * Hw
}.

(** [UsbJtag::UsbJtag()], on a peripheral in state [h]. *)
Definition UsbJtag_ctor {Hw} `{UsbJtagSetup Hw} (h : Hw)
  : Transport (UsbJtag.t Hw) :=
  let (ret, h) :=
    usb_serial_jtag_driver_install USB_JTAG_TX_BUFFER_SIZE
                                   USB_JTAG_RX_BUFFER_SIZE h in
  if negb (ret =? ESP_OK) then Transport_new (UsbJtag.mk h)
  else setInitialized true (Transport_new (UsbJtag.mk h)).

(** [UsbJtag::~UsbJtag()], followed by the base class destructor. *)
Definition UsbJtag_dtor {Hw} `{UsbJtagSetup Hw} (tr : Transport (UsbJtag.t Hw))
  : Transport (UsbJtag.t Hw) :=
  if isInitialized tr then
    let (_, h) := usb_serial_jtag_driver_uninstall (UsbJtag.hw (derived tr)) in
    Transport_dtor (set_derived (UsbJtag.mk h) tr)
  else Transport_dtor tr.

(** ** Invariants *)

(** What the send queue always looks like: at most [MAX_QUEUE_SIZE]
    entries, each of which passes [isValid]. *)
Definition queue_ok (q : BufferedQueue.t) : Prop :=
  (length q <= MAX_QUEUE_SIZE)%nat /\ Forall (fun p => isValid p = true) q.

(** ** More scenarios *)

(** A clock whose ticks are far enough apart for every one of them to be
    allowed to send: each tick starts no earlier than [due], and the next
    one no earlier than [SEND_INTERVAL_US] after this one's second
    reading. *)
Fixpoint spaced (due : Z) (ks : list Tick) : Prop :=
  match ks with
  | [] => True
  | k :: ks' =>
      due <= now k /\ 0 <= now k <= now_sent k
      /\ now_sent k + SEND_INTERVAL_US < 2 ^ 63
      /\ spaced (now_sent k + SEND_INTERVAL_US) ks'
  end.

(** Set-up calls for the stand-in hardware: configuration fails for a
    non-positive baud rate (the configuration is just that rate), everything
    else succeeds; [tx_room] counts the installs minus the deletes so that
    they can be told apart. *)
#[export] Instance Wire_UartSetup : UartSetup Wire :=
  {| uart_config_t := Z;
     uart_param_config :=
       fun _ baud w => (if baud <=? 0 then ESP_FAIL else ESP_OK, w);
     uart_set_pin := fun _ _ _ _ _ w => (ESP_OK, w);
     uart_driver_install :=
       fun _ _ _ _ _ w => (ESP_OK, mkWire (tx_room w + 1) (rx_pending w));
     uart_driver_delete :=
       fun _ w => (ESP_OK, mkWire (tx_room w - 1) (rx_pending w));
     uart_get_baudrate := fun _ w => (ESP_OK, 115200, w) |}.

#[export] Instance Wire_UsbJtagSetup : UsbJtagSetup Wire :=
  {| usb_serial_jtag_driver_install :=
       fun _ _ w => (if tx_room w <? 0 then ESP_FAIL else ESP_OK, w);
     usb_serial_jtag_driver_uninstall :=
       fun w => (ESP_OK, mkWire (tx_room w - 1) (rx_pending w)) |}.

(** ** Packet: theorems *)

Lemma isValid_sizes (p : Packet) :
  0 < size p <= 517 -> isValid p = true.
Proof.
  intros [Hpos Hmax]. unfold isValid, MAX_MTU.
  apply andb_true_iff. split; [apply Z.gtb_lt | apply Z.leb_le]; assumption.
Qed.

(** C6. For every packet [p], [isValid p] is true exactly when
    [0 < size p <= 517].  [isValid] is a [const] member: it is a function of
    the packet alone and returns nothing but the boolean, so the packet it
    is asked about is the one the caller still holds. *)
Theorem isValid_iff (p : Packet) :
  isValid p = true <-> 0 < size p <= 517.
Proof.
  unfold isValid, MAX_MTU.
  rewrite andb_true_iff, Z.gtb_lt, Z.leb_le.
  tauto.
Qed.

Lemma memcpy_length (dst src : list byte) (n : nat) :
  (n <= length src)%nat -> (n <= length dst)%nat ->
  length (memcpy dst src n) = length dst.
Proof.
  intros Hs Hd. unfold memcpy.
  rewrite length_app, firstn_length_le, length_skipn by assumption.
  lia.
Qed.

Lemma memcpy_firstn (dst src : list byte) (n : nat) :
  (n <= length src)%nat -> firstn n (memcpy dst src n) = firstn n src.
Proof.
  intros Hs. unfold memcpy.
  rewrite firstn_app, firstn_firstn, Nat.min_id.
  rewrite firstn_length_le by assumption.
  rewrite Nat.sub_diag. cbn [firstn]. apply app_nil_r.
Qed.

Lemma memcpy_skipn (dst src : list byte) (n : nat) :
  (n <= length src)%nat -> skipn n (memcpy dst src n) = skipn n dst.
Proof.
  intros Hs. unfold memcpy.
  rewrite skipn_app, firstn_length_le by assumption.
  rewrite Nat.sub_diag. cbn [skipn].
  rewrite skipn_all2; [reflexivity|].
  rewrite firstn_length_le; auto.
Qed.

(** C7. [setPayload] returns false and leaves the packet as it was (id, size
    and buffer) when [data] is null, [len = 0] or [len > 517].  Otherwise
    ([data] points to at least [len] readable bytes) it returns true, the
    first [len] bytes of the buffer are the first [len] bytes of [data], the
    bytes behind them are untouched, [size] is [len] and [id] is unchanged. *)
Theorem setPayload_spec (p : Packet) (data : option (list byte)) (len : Z) :
  ((data = None \/ len = 0 \/ len > 517) -> setPayload data len p = (false, p))
  /\
  (forall d, data = Some d -> 0 < len <= 517 ->
             (Z.to_nat len <= length d)%nat ->
     let r := setPayload data len p in
     fst r = true
     /\ size (snd r) = len
     /\ id (snd r) = id p
     /\ firstn (Z.to_nat len) (buffer (snd r)) = firstn (Z.to_nat len) d
     /\ skipn (Z.to_nat len) (buffer (snd r)) = skipn (Z.to_nat len) (buffer p)).
Proof.
  split.
  - intros H. unfold setPayload, MAX_MTU.
    destruct data as [d|]; [|reflexivity].
    destruct H as [H | [H | H]]; [discriminate | |].
    + subst len. reflexivity.
    + destruct (len =? 0); [reflexivity|].
      replace (len >? 517) with true by (symmetry; apply Z.gtb_lt; lia).
      reflexivity.
  - intros d -> Hlen Hd. unfold setPayload, MAX_MTU.
    replace (len =? 0) with false by (symmetry; apply Z.eqb_neq; lia).
    replace (len >? 517) with false
      by (symmetry; rewrite Z.gtb_ltb; apply Z.ltb_ge; lia).
    cbn. repeat split.
    + unfold to_u16. apply Z.mod_small. lia.
    + apply memcpy_firstn; assumption.
    + apply memcpy_skipn; assumption.
Qed.

Lemma setPayload_spec_witness :
  let p := {| id := 7; size := 3; buffer := repeat x00 517 |} in
  let d := repeat xff 12 in
  setPayload None 10 p = (false, p)
  /\ fst (setPayload (Some d) 10 p) = true
  /\ size (snd (setPayload (Some d) 10 p)) = 10.
Proof.
  intros p d.
  split; [apply (proj1 (setPayload_spec p None 10)); left; reflexivity|].
  destruct (proj2 (setPayload_spec p (Some d) 10) d eq_refl) as (H1 & H2 & _).
  - lia.
  - cbn. lia.
  - split; assumption.
Defined.

(** ** Transport: enqueueing and lifecycle *)

Lemma set_mSendQueue_same D (t : Transport D) :
  set_mSendQueue (mSendQueue t) t = t.
Proof. destruct t; reflexivity. Qed.

Lemma isInitialized_not_running D (t : Transport D) :
  mThread t = Thread.NOT_RUNNING -> isInitialized t = false.
Proof.
  intros Hs. unfold isInitialized. rewrite Hs. apply andb_false_r.
Qed.

Lemma send_rejected D (t : Transport D) (p : Packet) :
  isInitialized t = false \/ isValid p = false ->
  send p t = (ESP_ERR_INVALID_ARG, t).
Proof.
  intros [H | H]; unfold send; rewrite H; cbn [negb orb].
  - reflexivity.
  - rewrite orb_true_r. reflexivity.
Qed.

Lemma send_full D (t : Transport D) (p : Packet) :
  isInitialized t = true -> isValid p = true ->
  (MAX_QUEUE_SIZE <= length (mSendQueue t))%nat ->
  send p t = (ESP_ERR_INVALID_STATE, t).
Proof.
  intros Hi Hv Hfull. unfold send, BufferedQueue.send.
  rewrite Hi, Hv. cbn [negb orb].
  destruct (Nat.ltb_spec (length (mSendQueue t)) MAX_QUEUE_SIZE) as [Hlt|_].
  - lia.
  - rewrite set_mSendQueue_same. reflexivity.
Qed.

Lemma send_accepted D (t : Transport D) (p : Packet) :
  isInitialized t = true -> isValid p = true ->
  (length (mSendQueue t) < MAX_QUEUE_SIZE)%nat ->
  send p t = (ESP_OK, set_mSendQueue (mSendQueue t ++ [p]) t).
Proof.
  intros Hi Hv Hroom. unfold send, BufferedQueue.send.
  rewrite Hi, Hv. cbn [negb orb].
  destruct (Nat.ltb_spec (length (mSendQueue t)) MAX_QUEUE_SIZE) as [_|Hge].
  - reflexivity.
  - lia.
Qed.

(** C3. [send p] returns [ESP_ERR_INVALID_ARG] exactly when the engine is not
    initialised and running or [p] is not valid; in particular it does so for
    every packet while the worker thread has not been started.  Otherwise it
    returns the queue-full code (the source's [ESP_ERR_INVALID_STATE]) exactly
    when the queue holds [MAX_QUEUE_SIZE] entries, leaving the queue as it
    was, and otherwise returns [ESP_OK] with [p] appended at the back. *)
Theorem send_spec D (t : Transport D) (p : Packet) :
  (fst (send p t) = ESP_ERR_INVALID_ARG
   <-> isInitialized t = false \/ isValid p = false)
  /\ (mThread t = Thread.NOT_RUNNING -> send p t = (ESP_ERR_INVALID_ARG, t))
  /\ (isInitialized t = true -> isValid p = true ->
      (fst (send p t) = ESP_ERR_INVALID_STATE
       <-> (MAX_QUEUE_SIZE <= length (mSendQueue t))%nat)
      /\ ((MAX_QUEUE_SIZE <= length (mSendQueue t))%nat ->
          send p t = (ESP_ERR_INVALID_STATE, t))
      /\ ((length (mSendQueue t) < MAX_QUEUE_SIZE)%nat ->
          send p t = (ESP_OK, set_mSendQueue (mSendQueue t ++ [p]) t))).
Proof.
  split; [|split].
  - split.
    + intros Hret.
      destruct (isInitialized t) eqn:Hi; [|left; reflexivity].
      destruct (isValid p) eqn:Hv; [|right; reflexivity].
      exfalso.
      destruct (Nat.lt_ge_cases (length (mSendQueue t)) MAX_QUEUE_SIZE) as [Hc|Hc].
      * rewrite (send_accepted t p Hi Hv Hc) in Hret. discriminate.
      * rewrite (send_full t p Hi Hv Hc) in Hret. discriminate.
    + intros H. rewrite (send_rejected t p H). reflexivity.
  - intros Hs. apply send_rejected. left.
    apply isInitialized_not_running. assumption.
  - intros Hi Hv. split; [|split].
    + split.
      * intros Hret.
        destruct (Nat.lt_ge_cases (length (mSendQueue t)) MAX_QUEUE_SIZE)
          as [Hc|Hc]; [|assumption].
        rewrite (send_accepted t p Hi Hv Hc) in Hret. discriminate.
      * intros Hc. rewrite (send_full t p Hi Hv Hc). reflexivity.
    + apply send_full; assumption.
    + apply send_accepted; assumption.
Qed.

Lemma start_true_running D (spawned : bool) (t t1 : Transport D) :
  start spawned t = (true, t1) ->
  mThread t1 = Thread.RUNNING
  /\ mSendQueue t1 = mSendQueue t
  /\ mIsInitialized t1 = mIsInitialized t.
Proof.
  unfold start, Thread.quickStart.
  destruct (mThread t); [destruct spawned|]; intros Heq;
    inversion Heq; subst; cbn; auto.
Qed.

Lemma send_all_room D (ps : list Packet) : forall (t : Transport D),
  isInitialized t = true ->
  Forall (fun p => isValid p = true) ps ->
  (length (mSendQueue t) + length ps <= MAX_QUEUE_SIZE)%nat ->
  send_all ps t
  = (repeat ESP_OK (length ps), set_mSendQueue (mSendQueue t ++ ps) t).
Proof.
  induction ps as [|p ps IH]; intros t Hi Hv Hroom.
  - cbn. rewrite app_nil_r, set_mSendQueue_same. reflexivity.
  - inversion Hv as [|? ? Hp Hps]; subst.
    cbn [send_all length repeat]. cbn [length] in Hroom.
    rewrite send_accepted by (assumption || lia).
    rewrite IH.
    + cbn. rewrite <- app_assoc. reflexivity.
    + exact Hi.
    + assumption.
    + cbn. rewrite length_app. cbn. lia.
Qed.

Lemma send_all_app D (ps qs : list Packet) : forall (t : Transport D),
  send_all (ps ++ qs) t
  = (fst (send_all ps t) ++ fst (send_all qs (snd (send_all ps t))),
     snd (send_all qs (snd (send_all ps t)))).
Proof.
  induction ps as [|p ps IH]; intros t.
  - cbn. destruct (send_all qs t); reflexivity.
  - cbn [app send_all]. destruct (send p t) as [ret t1].
    rewrite IH. destruct (send_all ps t1) as [rets t2]. cbn.
    reflexivity.
Qed.

(** C4. On an initialised transport whose [start()] succeeded and whose
    queue is empty, with no dispatch in between, sixteen [send] calls with
    valid packets all return [ESP_OK] and the seventeenth returns the
    queue-full code; the queue then holds the sixteen packets in order. *)
Theorem sixteen_sends_then_full D (t0 t : Transport D) (spawned : bool)
  (ps : list Packet) (p17 : Packet) :
  mIsInitialized t0 = true ->
  mSendQueue t0 = [] ->
  start spawned t0 = (true, t) ->
  length ps = 16%nat ->
  Forall (fun p => isValid p = true) ps ->
  isValid p17 = true ->
  send_all (ps ++ [p17]) t
  = (repeat ESP_OK 16 ++ [ESP_ERR_INVALID_STATE], set_mSendQueue ps t).
Proof.
  intros Hinit Hq Hstart Hlen Hvalid Hv17.
  destruct (start_true_running _ _ Hstart) as (Hrun & Hq1 & Hinit1).
  assert (Hi : isInitialized t = true).
  { unfold isInitialized. rewrite Hinit1, Hinit, Hrun. reflexivity. }
  rewrite Hq in Hq1.
  rewrite send_all_app, send_all_room; try assumption.
  - rewrite Hq1, Hlen. cbn [fst snd app send_all].
    rewrite send_full.
    + reflexivity.
    + exact Hi.
    + assumption.
    + cbn. unfold MAX_QUEUE_SIZE. lia.
  - rewrite Hq1, Hlen. cbn. unfold MAX_QUEUE_SIZE. lia.
Qed.

Lemma sixteen_sends_then_full_witness :
  let p := {| id := 0; size := 1; buffer := repeat x00 517 |} in
  let t0 := setInitialized true (Transport_new tt) in
  fst (send_all (repeat p 16 ++ [p]) (snd (start true t0)))
  = repeat ESP_OK 16 ++ [ESP_ERR_INVALID_STATE].
Proof.
  intros p t0.
  rewrite (@sixteen_sends_then_full unit t0 (snd (start true t0)) true
             (repeat p 16) p).
  - reflexivity.
  - reflexivity.
  - reflexivity.
  - reflexivity.
  - reflexivity.
  - apply Forall_forall. intros x Hx. apply repeat_spec in Hx. subst x.
    reflexivity.
  - reflexivity.
Defined.

Lemma run_not_running D `{Adapter D} (ks : list Tick) (t : Transport D) :
  mThread t = Thread.NOT_RUNNING -> run ks t = (t, []).
Proof.
  intros Hs. destruct ks; cbn; [|rewrite Hs]; reflexivity.
Qed.

(** C8. [stop()] leaves the send queue empty and the worker thread not
    running, so the dispatch loop makes no further iteration; a second
    [stop()] changes nothing; and [clearQueue()] after [stop()] returns 0. *)
Theorem stop_drains_and_halts D `{Adapter D} (t : Transport D) :
  mSendQueue (stop t) = []
  /\ mThread (stop t) = Thread.NOT_RUNNING
  /\ (forall ks, run ks (stop t) = (stop t, []))
  /\ stop (stop t) = stop t
  /\ clearQueue (stop t) = (0, stop t).
Proof.
  repeat split.
  intros ks. apply run_not_running. reflexivity.
Qed.

Lemma send_spec_witness :
  let p := {| id := 0; size := 1; buffer := repeat x00 517 |} in
  let t := snd (start true (setInitialized true (Transport_new tt))) in
  send p (Transport_new tt) = (ESP_ERR_INVALID_ARG, Transport_new tt)
  /\ send p t = (ESP_OK, set_mSendQueue [p] t).
Proof.
  intros p t. split.
  - apply (proj1 (proj2 (send_spec (Transport_new tt) p))). reflexivity.
  - apply (proj2 (proj2 (send_spec t p))); try reflexivity.
    cbn. unfold MAX_QUEUE_SIZE. lia.
Defined.

(** The send queue never grows past [MAX_QUEUE_SIZE]. *)
Lemma BufferedQueue_send_bound (item : Packet) (q : BufferedQueue.t) :
  (length q <= MAX_QUEUE_SIZE)%nat ->
  (length (snd (BufferedQueue.send MAX_QUEUE_SIZE item q))
   <= MAX_QUEUE_SIZE)%nat.
Proof.
  intros Hq. unfold BufferedQueue.send.
  destruct (Nat.ltb_spec (length q) MAX_QUEUE_SIZE); cbn [snd];
    [rewrite length_app; cbn; lia | assumption].
Qed.

Lemma send_queue_bound D (p : Packet) (t : Transport D) :
  (length (mSendQueue t) <= MAX_QUEUE_SIZE)%nat ->
  (length (mSendQueue (snd (send p t))) <= MAX_QUEUE_SIZE)%nat.
Proof.
  intros Hq. unfold send.
  destruct (negb (isInitialized t) || negb (isValid p)); [assumption|].
  pose proof (BufferedQueue_send_bound p _ Hq) as Hb.
  destruct (BufferedQueue.send _ _ _); exact Hb.
Qed.

Lemma handleSendError_queue_bound D (p : Packet) (err : esp_err_t)
  (t : Transport D) :
  (length (mSendQueue t) <= MAX_QUEUE_SIZE)%nat ->
  (length (mSendQueue (fst (handleSendError p err t)))
   <= MAX_QUEUE_SIZE)%nat.
Proof.
  intros Hq. unfold handleSendError.
  destruct (isTemporary err); [|assumption].
  pose proof (BufferedQueue_send_bound p _ Hq) as Hb.
  destruct (BufferedQueue.send _ _ _); exact Hb.
Qed.

Lemma processSendQueue_queue_bound D `{Adapter D} (now now_sent : Z)
  (t : Transport D) :
  (length (mSendQueue t) <= MAX_QUEUE_SIZE)%nat ->
  (length (mSendQueue (fst (processSendQueue now now_sent t)))
   <= MAX_QUEUE_SIZE)%nat.
Proof.
  intros Hq. unfold processSendQueue.
  destruct (mNextSendTime t >? to_u64 now); [assumption|].
  destruct (mSendQueue t) as [|p q] eqn:Hqueue;
    [cbn [BufferedQueue.receive fst]; rewrite Hqueue; assumption|].
  cbn [BufferedQueue.receive].
  destruct (sendImpl (set_mSendQueue q t) p) as [[ret p'] d].
  cbn [length] in Hq.
  destruct (ret =? ESP_OK); [cbn; lia|].
  pose proof (@handleSendError_queue_bound D p' ret
                (set_derived d (set_mSendQueue q t))) as Hb.
  destruct (handleSendError p' ret _) as [t' evs]. cbn [fst] in *.
  apply Hb. cbn. lia.
Qed.

(** ** Transport: the send phase of the dispatch loop *)

Lemma isTemporary_not_ok (ret : esp_err_t) :
  isTemporary ret = true -> ret <> ESP_OK.
Proof.
  unfold isTemporary, ESP_ERR_NO_MEM, ESP_ERR_INVALID_STATE, ESP_ERR_TIMEOUT,
    ESP_OK.
  rewrite !orb_true_iff, !Z.eqb_eq. lia.
Qed.

Lemma processSendQueue_too_early D `{Adapter D} (now now_sent : Z)
  (t : Transport D) :
  to_u64 now < mNextSendTime t ->
  processSendQueue now now_sent t = (t, []).
Proof.
  intros Hdue. unfold processSendQueue.
  replace (mNextSendTime t >? to_u64 now) with true
    by (symmetry; apply Z.gtb_lt; assumption).
  reflexivity.
Qed.

Lemma processSendQueue_empty D `{Adapter D} (now now_sent : Z)
  (t : Transport D) :
  mSendQueue t = [] -> processSendQueue now now_sent t = (t, []).
Proof.
  intros Hq. unfold processSendQueue. rewrite Hq. cbn.
  destruct (mNextSendTime t >? to_u64 now); reflexivity.
Qed.

(** What [processSendQueue] does when sending is due and the head of the
    queue goes through [sendImpl]. *)
Lemma processSendQueue_open D `{Adapter D} (now now_sent : Z)
  (t : Transport D) (p p' : Packet) (q : BufferedQueue.t) (ret : esp_err_t)
  (d : D) :
  mNextSendTime t <= to_u64 now ->
  mSendQueue t = p :: q ->
  sendImpl (set_mSendQueue q t) p = (ret, p', d) ->
  processSendQueue now now_sent t
  = if ret =? ESP_OK then
      (set_mNextSendTime (to_u64 (now_sent + SEND_INTERVAL_US))
         (set_derived d (set_mSendQueue q t)),
       [EvSendImpl p ret])
    else
      (fst (handleSendError p' ret (set_derived d (set_mSendQueue q t))),
       EvSendImpl p ret
         :: snd (handleSendError p' ret (set_derived d (set_mSendQueue q t)))).
Proof.
  intros Hdue Hq Hsend. unfold processSendQueue.
  replace (mNextSendTime t >? to_u64 now) with false
    by (symmetry; rewrite Z.gtb_ltb; apply Z.ltb_ge; assumption).
  rewrite Hq. cbn [BufferedQueue.receive]. rewrite Hsend.
  destruct (ret =? ESP_OK); [reflexivity|].
  destruct (handleSendError p' ret _); reflexivity.
Qed.

Lemma processSendQueue_transient D `{Adapter D} (now now_sent : Z)
  (t : Transport D) (p p' : Packet) (q : BufferedQueue.t) (ret : esp_err_t)
  (d : D) :
  mNextSendTime t <= to_u64 now ->
  mSendQueue t = p :: q ->
  (length (mSendQueue t) <= MAX_QUEUE_SIZE)%nat ->
  sendImpl (set_mSendQueue q t) p = (ret, p', d) ->
  isTemporary ret = true ->
  processSendQueue now now_sent t
  = (set_mSendQueue (q ++ [p']) (set_derived d t),
     EvSendImpl p ret
       :: (if mErrorCallback t then [EvError p' ret] else [])).
Proof.
  intros Hdue Hq Hcap Hsend Htmp.
  rewrite (processSendQueue_open _ _ _ Hdue Hq Hsend).
  replace (ret =? ESP_OK) with false
    by (symmetry; apply Z.eqb_neq, isTemporary_not_ok; assumption).
  unfold handleSendError, BufferedQueue.send. rewrite Htmp.
  cbn [mSendQueue set_derived set_mSendQueue mErrorCallback].
  rewrite Hq in Hcap. cbn [length] in Hcap.
  destruct (Nat.ltb_spec (length q) MAX_QUEUE_SIZE) as [_|Hge]; [|lia].
  reflexivity.
Qed.

Lemma processSendQueue_fatal D `{Adapter D} (now now_sent : Z)
  (t : Transport D) (p p' : Packet) (q : BufferedQueue.t) (ret : esp_err_t)
  (d : D) :
  mNextSendTime t <= to_u64 now ->
  mSendQueue t = p :: q ->
  sendImpl (set_mSendQueue q t) p = (ret, p', d) ->
  ret <> ESP_OK ->
  isTemporary ret = false ->
  processSendQueue now now_sent t
  = (set_derived d (set_mSendQueue q t),
     EvSendImpl p ret
       :: (if mErrorCallback t then [EvError p' ret] else [])).
Proof.
  intros Hdue Hq Hsend Hret Hfatal.
  rewrite (processSendQueue_open _ _ _ Hdue Hq Hsend).
  replace (ret =? ESP_OK) with false
    by (symmetry; apply Z.eqb_neq; assumption).
  unfold handleSendError. rewrite Hfatal. reflexivity.
Qed.

Lemma processSendQueue_ok D `{Adapter D} (now now_sent : Z)
  (t : Transport D) (p p' : Packet) (q : BufferedQueue.t) (d : D) :
  mNextSendTime t <= to_u64 now ->
  mSendQueue t = p :: q ->
  sendImpl (set_mSendQueue q t) p = (ESP_OK, p', d) ->
  processSendQueue now now_sent t
  = (set_mNextSendTime (to_u64 (now_sent + SEND_INTERVAL_US))
       (set_derived d (set_mSendQueue q t)),
     [EvSendImpl p ESP_OK]).
Proof.
  intros Hdue Hq Hsend.
  rewrite (processSendQueue_open _ _ _ Hdue Hq Hsend). reflexivity.
Qed.

(** The mock adapter on an empty queue: nothing happens, however long the
    loop runs. *)
Lemma run_mock_idle (ks : list Tick) : forall (t : Transport Mock.t),
  mSendQueue t = [] ->
  events (snd (run ks t)) = [] /\ mSendQueue (fst (run ks t)) = [].
Proof.
  induction ks as [|k ks IH]; intros t Hq; [cbn; auto|].
  cbn [run]. destruct (mThread t); [cbn; auto|].
  unfold loop. rewrite processSendQueue_empty by assumption.
  cbn [processReceivedData Mock_Adapter processReceivedData_default app map].
  destruct (run ks t) as [t2 log] eqn:Hrun.
  specialize (IH t Hq). rewrite Hrun in IH. cbn in *. exact IH.
Qed.

Lemma run_cons D `{Adapter D} (k : Tick) (ks : list Tick) (t : Transport D) :
  mThread t = Thread.RUNNING ->
  run (k :: ks) t
  = (fst (run ks (fst (loop k t))),
     (k, snd (loop k t)) :: snd (run ks (fst (loop k t)))).
Proof.
  intros Hs. cbn [run]. rewrite Hs.
  destruct (loop k t) as [t1 evs]. cbn [fst snd].
  destruct (run ks t1); reflexivity.
Qed.

Lemma loop_mock (k : Tick) (t : Transport Mock.t) :
  loop k t = processSendQueue (now k) (now_sent k) t.
Proof.
  unfold loop.
  destruct (processSendQueue (now k) (now_sent k) t) as [t1 evs].
  cbn. rewrite app_nil_r. reflexivity.
Qed.

Lemma sendImpl_mock (t : Transport Mock.t) (p : Packet) (ret : esp_err_t)
  (rest : Mock.t) :
  derived t = ret :: rest -> sendImpl t p = (ret, p, rest).
Proof.
  intros Hd. cbn. unfold Mock.sendImpl. rewrite Hd. reflexivity.
Qed.

(** C1 (amended). When [sendImpl] returns a transient outcome, the engine
    calls the bound error handler, if there is one, once with the packet and
    the outcome, and then puts the packet (as [sendImpl] left it) back at the
    end of the send queue; the next-permitted-send time stays as it was.  With
    the mock adapter that fails once with a transient outcome and then
    succeeds, a queue holding just [p] gives exactly two [sendImpl] calls,
    both for [p]; [p] leaves the queue only with the successful second call,
    and the error handler, if bound, is called exactly once, for the
    transient failure. *)
Theorem transient_outcome_requeued :
  (forall D (Ad : Adapter D) (now now_sent : Z) (t : Transport D)
          (p p' : Packet) (q : BufferedQueue.t) (ret : esp_err_t) (d : D),
      mNextSendTime t <= to_u64 now ->
      mSendQueue t = p :: q ->
      (length (mSendQueue t) <= MAX_QUEUE_SIZE)%nat ->
      sendImpl (set_mSendQueue q t) p = (ret, p', d) ->
      isTemporary ret = true ->
      let r := processSendQueue now now_sent t in
      mSendQueue (fst r) = q ++ [p']
      /\ sendImpl_calls (snd r) = [(p, ret)]
      /\ error_reports (snd r)
         = (if mErrorCallback t then [(p', ret)] else [])
      /\ mNextSendTime (fst r) = mNextSendTime t)
  /\
  (forall (t : Transport Mock.t) (p : Packet) (e : esp_err_t)
          (k1 k2 : Tick) (ks : list Tick),
      mThread t = Thread.RUNNING ->
      mSendQueue t = [p] ->
      derived t = [e] ->
      isTemporary e = true ->
      mNextSendTime t <= to_u64 (now k1) ->
      mNextSendTime t <= to_u64 (now k2) ->
      let r := run (k1 :: k2 :: ks) t in
      sendImpl_calls (events (snd r)) = [(p, e); (p, ESP_OK)]
      /\ error_reports (events (snd r))
         = (if mErrorCallback t then [(p, e)] else [])
      /\ mSendQueue (fst r) = []).
Proof.
  split.
  - intros D Ad now now_sent t p p' q ret d Hdue Hq Hcap Hsend Htmp r.
    subst r.
    rewrite (processSendQueue_transient _ _ _ Hdue Hq Hcap Hsend Htmp).
    cbn [fst snd].
    repeat split; destruct (mErrorCallback t); reflexivity.
  - intros t p e k1 k2 ks Hrun Hq Hd Htmp Hdue1 Hdue2 r. subst r.
    assert (Hcap : (length (mSendQueue t) <= MAX_QUEUE_SIZE)%nat)
      by (rewrite Hq; cbn; unfold MAX_QUEUE_SIZE; lia).
    assert (Hs1 : sendImpl (set_mSendQueue [] t) p = (e, p, []))
      by (apply sendImpl_mock; exact Hd).
    rewrite run_cons by exact Hrun. rewrite loop_mock.
    rewrite (processSendQueue_transient _ _ _ Hdue1 Hq Hcap Hs1 Htmp).
    cbn [fst snd app].
    match goal with |- context [run (k2 :: ks) ?t1] =>
      rewrite (@run_cons _ _ k2 ks t1) by exact Hrun;
      rewrite loop_mock;
      rewrite (@processSendQueue_ok _ _ (now k2) (now_sent k2) t1 p p [] [])
        by (exact Hdue2 || reflexivity)
    end.
    cbn [fst snd].
    match goal with |- context [run ks ?t2] =>
      destruct (@run_mock_idle ks t2 eq_refl) as [Hev Hfin]
    end.
    unfold events in *. cbn [flat_map snd].
    rewrite Hev, Hfin. unfold sendImpl_calls, error_reports.
    destruct (mErrorCallback t); cbn; auto.
Qed.

(** C1 (as stated) fails: the mock adapter returns [ESP_ERR_TIMEOUT], a
    transient outcome, for the only packet of the queue; the packet goes back
    into the queue, and the bound error handler is called all the same. *)
Lemma transient_outcome_reported :
  let t := mock_transport [ESP_ERR_TIMEOUT] true [example_packet] in
  let r := processSendQueue 0 0 t in
  sendImpl_calls (snd r) = [(example_packet, ESP_ERR_TIMEOUT)]
  /\ isTemporary ESP_ERR_TIMEOUT = true
  /\ mSendQueue (fst r) = [example_packet]
  /\ error_reports (snd r) <> [].
Proof.
  vm_compute. repeat split. discriminate.
Qed.

Lemma transient_outcome_requeued_witness :
  let t := mock_transport [ESP_ERR_TIMEOUT] true [example_packet] in
  let r1 := processSendQueue 0 5 t in
  let r := run [mkTick 0 5; mkTick 10 15; mkTick 20 25] t in
  (mSendQueue (fst r1) = [example_packet]
   /\ error_reports (snd r1) = [(example_packet, ESP_ERR_TIMEOUT)])
  /\ sendImpl_calls (events (snd r))
     = [(example_packet, ESP_ERR_TIMEOUT); (example_packet, ESP_OK)]
  /\ error_reports (events (snd r)) = [(example_packet, ESP_ERR_TIMEOUT)]
  /\ mSendQueue (fst r) = [].
Proof.
  intros t r1 r.
  destruct transient_outcome_requeued as [Htick Hrun].
  split.
  - destruct (Htick Mock.t Mock_Adapter 0 5 t example_packet example_packet
                [] ESP_ERR_TIMEOUT []) as (Hq & _ & He & _).
    + vm_compute. discriminate.
    + reflexivity.
    + vm_compute. lia.
    + reflexivity.
    + reflexivity.
    + split; [exact Hq | exact He].
  - apply (Hrun t example_packet ESP_ERR_TIMEOUT
             (mkTick 0 5) (mkTick 10 15) [mkTick 20 25]).
    + reflexivity.
    + reflexivity.
    + reflexivity.
    + reflexivity.
    + vm_compute. discriminate.
    + vm_compute. discriminate.
Defined.

(** C2. When [sendImpl] returns a fatal outcome (a failure that is none of
    [ESP_ERR_NO_MEM], [ESP_ERR_INVALID_STATE], [ESP_ERR_TIMEOUT]), the tick
    makes that one [sendImpl] call, the packet is not put back (the queue is
    what was behind it), and the error handler, if bound, is called exactly
    once with the packet (as [sendImpl] left it) and the outcome.  With the
    mock adapter failing fatally on a queue holding just [p], the whole run
    has exactly one [sendImpl] call, the queue ends empty, and the handler,
    if bound, is called exactly once with [p] and the outcome. *)
Theorem fatal_outcome_dropped :
  (forall D (Ad : Adapter D) (now now_sent : Z) (t : Transport D)
          (p p' : Packet) (q : BufferedQueue.t) (ret : esp_err_t) (d : D),
      mNextSendTime t <= to_u64 now ->
      mSendQueue t = p :: q ->
      sendImpl (set_mSendQueue q t) p = (ret, p', d) ->
      ret <> ESP_OK ->
      isTemporary ret = false ->
      let r := processSendQueue now now_sent t in
      mSendQueue (fst r) = q
      /\ sendImpl_calls (snd r) = [(p, ret)]
      /\ error_reports (snd r)
         = (if mErrorCallback t then [(p', ret)] else []))
  /\
  (forall (t : Transport Mock.t) (p : Packet) (e : esp_err_t) (rest : Mock.t)
          (k : Tick) (ks : list Tick),
      mThread t = Thread.RUNNING ->
      mSendQueue t = [p] ->
      derived t = e :: rest ->
      e <> ESP_OK ->
      isTemporary e = false ->
      mNextSendTime t <= to_u64 (now k) ->
      let r := run (k :: ks) t in
      sendImpl_calls (events (snd r)) = [(p, e)]
      /\ error_reports (events (snd r))
         = (if mErrorCallback t then [(p, e)] else [])
      /\ mSendQueue (fst r) = []).
Proof.
  split.
  - intros D Ad now now_sent t p p' q ret d Hdue Hq Hsend Hret Hfatal r.
    subst r.
    rewrite (processSendQueue_fatal _ _ _ Hdue Hq Hsend Hret Hfatal).
    cbn [fst snd].
    repeat split; destruct (mErrorCallback t); reflexivity.
  - intros t p e rest k ks Hrun Hq Hd Hret Hfatal Hdue r. subst r.
    assert (Hs : sendImpl (set_mSendQueue [] t) p = (e, p, rest))
      by (apply sendImpl_mock; exact Hd).
    rewrite run_cons by exact Hrun. rewrite loop_mock.
    rewrite (processSendQueue_fatal _ _ _ Hdue Hq Hs Hret Hfatal).
    cbn [fst snd].
    match goal with |- context [run ks ?t2] =>
      destruct (@run_mock_idle ks t2 eq_refl) as [Hev Hfin]
    end.
    unfold events in *. cbn [flat_map snd].
    rewrite Hev, Hfin. unfold sendImpl_calls, error_reports.
    destruct (mErrorCallback t); cbn; auto.
Qed.

Lemma fatal_outcome_dropped_witness :
  let t := mock_transport [ESP_FAIL] true [example_packet; other_packet] in
  let r1 := processSendQueue 0 5 t in
  let t' := mock_transport [ESP_ERR_INVALID_ARG] true [example_packet] in
  let r := run [mkTick 0 5; mkTick 10 15] t' in
  (mSendQueue (fst r1) = [other_packet]
   /\ sendImpl_calls (snd r1) = [(example_packet, ESP_FAIL)]
   /\ error_reports (snd r1) = [(example_packet, ESP_FAIL)])
  /\ sendImpl_calls (events (snd r)) = [(example_packet, ESP_ERR_INVALID_ARG)]
  /\ error_reports (events (snd r)) = [(example_packet, ESP_ERR_INVALID_ARG)]
  /\ mSendQueue (fst r) = [].
Proof.
  intros t r1 t' r.
  destruct fatal_outcome_dropped as [Htick Hrun].
  split.
  - apply (Htick Mock.t Mock_Adapter 0 5 t example_packet example_packet
             [other_packet] ESP_FAIL []).
    + vm_compute. discriminate.
    + reflexivity.
    + reflexivity.
    + discriminate.
    + reflexivity.
  - apply (Hrun t' example_packet ESP_ERR_INVALID_ARG []
             (mkTick 0 5) [mkTick 10 15]).
    + reflexivity.
    + reflexivity.
    + reflexivity.
    + discriminate.
    + reflexivity.
    + vm_compute. discriminate.
Defined.

(** ** Transport: rate limiting *)

Lemma to_u64_small (z : Z) : 0 <= z < 2 ^ 63 -> to_u64 z = z.
Proof. intros Hz. unfold to_u64. apply Z.mod_small. lia. Qed.

Lemma handleSendError_time D (p : Packet) (err : esp_err_t)
  (t : Transport D) :
  mNextSendTime (fst (handleSendError p err t)) = mNextSendTime t.
Proof.
  unfold handleSendError. destruct (isTemporary err); [|reflexivity].
  destruct (BufferedQueue.send _ _ _); reflexivity.
Qed.

Lemma handleSendError_no_sendImpl D (p : Packet) (err : esp_err_t)
  (t : Transport D) :
  sendImpl_calls (snd (handleSendError p err t)) = [].
Proof.
  unfold handleSendError.
  destruct (isTemporary err); [destruct (BufferedQueue.send _ _ _)|];
    destruct (mErrorCallback t); reflexivity.
Qed.

(** One [processSendQueue]: either no [sendImpl] call and the same
    next-permitted-send time, or one call with sending due; after a
    success the time is [now_sent + SEND_INTERVAL_US], after a failure it is
    unchanged. *)
Lemma processSendQueue_cases D `{Adapter D} (now now_sent : Z)
  (t : Transport D) :
  let r := processSendQueue now now_sent t in
  (sendImpl_calls (snd r) = []
   /\ mNextSendTime (fst r) = mNextSendTime t)
  \/ (exists p ret,
         sendImpl_calls (snd r) = [(p, ret)]
         /\ mNextSendTime t <= to_u64 now
         /\ mNextSendTime (fst r)
            = if ret =? ESP_OK then to_u64 (now_sent + SEND_INTERVAL_US)
              else mNextSendTime t).
Proof.
  cbv zeta. unfold processSendQueue.
  destruct (Z.gtb_spec (mNextSendTime t) (to_u64 now)) as [Hgt|Hle];
    [left; split; reflexivity|].
  destruct (mSendQueue t) as [|p q]; [left; split; reflexivity|].
  cbn [BufferedQueue.receive].
  destruct (sendImpl (set_mSendQueue q t) p) as [[ret p'] d].
  right. exists p, ret.
  destruct (ret =? ESP_OK) eqn:Hret.
  - cbn. auto.
  - pose proof (handleSendError_time p' ret
                  (set_derived d (set_mSendQueue q t))) as Htime.
    pose proof (handleSendError_no_sendImpl p' ret
                  (set_derived d (set_mSendQueue q t))) as Hcalls.
    destruct (handleSendError p' ret _) as [t' evs].
    cbn [fst snd] in *. cbn [sendImpl_calls flat_map app].
    unfold sendImpl_calls in Hcalls. rewrite Hcalls, Htime.
    cbn. auto.
Qed.

Lemma sendImpl_calls_app (l1 l2 : list Event) :
  sendImpl_calls (l1 ++ l2) = sendImpl_calls l1 ++ sendImpl_calls l2.
Proof. apply flat_map_app. Qed.

Lemma sendImpl_calls_received (ps : list Packet) :
  sendImpl_calls (map EvData ps) = [].
Proof. induction ps; [reflexivity|assumption]. Qed.

Lemma sendImpl_calls_In (evs : list Event) (p : Packet) (ret : esp_err_t) :
  In (EvSendImpl p ret) evs <-> In (p, ret) (sendImpl_calls evs).
Proof.
  unfold sendImpl_calls. rewrite in_flat_map. split.
  - intros Hin. exists (EvSendImpl p ret). split; [assumption|left; reflexivity].
  - intros (e & Hin & He). destruct e; cbn in He; try contradiction.
    destruct He as [He|[]]. inversion He; subst. assumption.
Qed.

Section RateLimit.

Context {D : Type} {Ad : Adapter D}.

(** The receive poll of the channel leaves the next-permitted-send time
    alone. *)
Hypothesis receive_keeps_time : forall t : Transport D,
  mNextSendTime (fst (processReceivedData t)) = mNextSendTime t.

Lemma loop_cases (k : Tick) (t : Transport D) :
  let r := loop k t in
  (sendImpl_calls (snd r) = []
   /\ mNextSendTime (fst r) = mNextSendTime t)
  \/ (exists p ret,
         sendImpl_calls (snd r) = [(p, ret)]
         /\ mNextSendTime t <= to_u64 (now k)
         /\ mNextSendTime (fst r)
            = if ret =? ESP_OK then to_u64 (now_sent k + SEND_INTERVAL_US)
              else mNextSendTime t).
Proof.
  cbv zeta. unfold loop.
  pose proof (processSendQueue_cases (now k) (now_sent k) t) as Hc.
  cbv zeta in Hc.
  destruct (processSendQueue (now k) (now_sent k) t) as [t1 evs1].
  pose proof (receive_keeps_time t1) as Hr.
  destruct (processReceivedData t1) as [t2 received].
  cbn [fst snd] in *.
  rewrite sendImpl_calls_app, sendImpl_calls_received, app_nil_r, Hr.
  exact Hc.
Qed.

(** The next-permitted-send time never moves back while the clock runs
    forward. *)
Lemma loop_time_mono (since : Z) (k : Tick) (ks : list Tick)
  (t : Transport D) :
  0 <= since -> clock_ok since (k :: ks) ->
  mNextSendTime t <= mNextSendTime (fst (loop k t)).
Proof.
  intros Hs (H1 & H2 & H3 & _).
  destruct (loop_cases k t) as [[_ Heq] | (p & ret & _ & Hdue & Heq)];
    rewrite Heq; [lia|].
  destruct (ret =? ESP_OK); [|lia].
  unfold SEND_INTERVAL_US in *.
  rewrite to_u64_small in Hdue by lia.
  rewrite to_u64_small by lia. lia.
Qed.

(** Every tick of a run that calls [sendImpl] starts at or after the
    next-permitted-send time the run began with. *)
Lemma run_send_not_early (ks : list Tick) : forall (since : Z) (t : Transport D),
  0 <= since -> clock_ok since ks ->
  forall k evs p ret,
    In (k, evs) (snd (run ks t)) -> In (EvSendImpl p ret) evs ->
    mNextSendTime t <= now k.
Proof.
  induction ks as [|k0 ks IH]; intros since t Hs Hclock k evs p ret Hin Hev;
    [contradiction|].
  destruct (mThread t) eqn:Hrun;
    [rewrite run_not_running in Hin by assumption; contradiction|].
  rewrite run_cons in Hin by assumption. cbn [snd] in Hin.
  pose proof (loop_time_mono t Hs Hclock) as Hmono.
  destruct Hclock as (H1 & H2 & H3 & Hrest).
  destruct Hin as [Hhd | Htl].
  - inversion Hhd; subst k evs.
    apply sendImpl_calls_In in Hev.
    destruct (loop_cases k0 t) as [[Hnone _] | (p1 & r1 & _ & Hdue & _)].
    + rewrite Hnone in Hev. contradiction.
    + rewrite to_u64_small in Hdue; [assumption|].
      unfold SEND_INTERVAL_US in *. lia.
  - assert (Hs' : 0 <= now_sent k0) by lia.
    specialize (IH (now_sent k0) (fst (loop k0 t)) Hs' Hrest k evs p ret
                  Htl Hev).
    lia.
Qed.

(** Any [sendImpl] call of a run that comes after a successful one starts
    at least [SEND_INTERVAL_US] after the moment that one succeeded. *)
Lemma run_spacing (ks : list Tick) : forall (since : Z) (t : Transport D),
  0 <= since -> clock_ok since ks ->
  forall l1 ki evsi l2 kj evsj l3 pi pj rj,
    snd (run ks t) = l1 ++ (ki, evsi) :: l2 ++ (kj, evsj) :: l3 ->
    In (EvSendImpl pi ESP_OK) evsi ->
    In (EvSendImpl pj rj) evsj ->
    now_sent ki + SEND_INTERVAL_US <= now kj.
Proof.
  induction ks as [|k0 ks IH];
    intros since t Hs Hclock l1 ki evsi l2 kj evsj l3 pi pj rj Hlog Hi Hj.
  - destruct l1; discriminate.
  - destruct (mThread t) eqn:Hrun;
      [rewrite run_not_running in Hlog by assumption;
       destruct l1; discriminate|].
    rewrite run_cons in Hlog by assumption. cbn [snd] in Hlog.
    destruct Hclock as (H1 & H2 & H3 & Hrest).
    assert (Hs' : 0 <= now_sent k0) by lia.
    destruct l1 as [|x l1]; cbn [app] in Hlog.
    + inversion Hlog as [[Hk Hevs Htl]]. subst ki.
      assert (Hin : In (kj, evsj) (snd (run ks (fst (loop k0 t)))))
        by (rewrite Htl; apply in_or_app; right; left; reflexivity).
      pose proof (@run_send_not_early ks (now_sent k0) (fst (loop k0 t)) Hs' Hrest
                    kj evsj pj rj Hin Hj) as Hdue.
      rewrite <- Hevs in Hi. apply sendImpl_calls_In in Hi.
      destruct (loop_cases k0 t) as [[Hnone _] | (p1 & r1 & Hone & _ & Heq)].
      * rewrite Hnone in Hi. contradiction.
      * rewrite Hone in Hi. destruct Hi as [Hi|[]].
        inversion Hi; subst p1 r1. cbn in Heq.
        rewrite Heq in Hdue.
        rewrite to_u64_small in Hdue; [assumption|].
        unfold SEND_INTERVAL_US in *. lia.
    + inversion Hlog as [[Hx Htl]].
      exact (IH (now_sent k0) (fst (loop k0 t)) Hs' Hrest
               _ _ _ _ _ _ _ _ _ _ Htl Hi Hj).
Qed.

End RateLimit.

(** The channels of the repository meet the assumption of [RateLimit]:
    their receive polls only enqueue replies. *)
Lemma send_time D (p : Packet) (t : Transport D) :
  mNextSendTime (snd (send p t)) = mNextSendTime t.
Proof.
  unfold send. destruct (negb (isInitialized t) || negb (isValid p));
    [reflexivity|].
  destruct (BufferedQueue.send _ _ _); reflexivity.
Qed.

Lemma invoke_time D (cb : PacketCallback) (p : Packet) (t : Transport D) :
  mNextSendTime (fst (invoke cb p t)) = mNextSendTime t.
Proof.
  unfold invoke. cbn [fst]. generalize (cb p) as replies.
  intros replies. revert t.
  induction replies as [|r replies IH]; intros t; [reflexivity|].
  cbn [fold_left]. rewrite IH. apply send_time.
Qed.

Lemma Uart_receive_keeps_time Hw `{Uart.Driver Hw}
  (tr : Transport (Uart.t Hw)) :
  mNextSendTime (fst (Uart.processReceivedData tr)) = mNextSendTime tr.
Proof.
  unfold Uart.processReceivedData.
  destruct (mDataCallback tr) as [cb|]; [|reflexivity].
  destruct (Uart.available tr) as [avail h0].
  destruct (avail =? 0); [reflexivity|].
  destruct (Uart.read _ _) as [[n buffer'] h].
  destruct (_ >? 0); [|reflexivity].
  rewrite invoke_time. reflexivity.
Qed.

Lemma UsbJtag_receive_keeps_time Hw `{UsbJtag.Driver Hw}
  (tr : Transport (UsbJtag.t Hw)) :
  mNextSendTime (fst (UsbJtag.processReceivedData tr)) = mNextSendTime tr.
Proof.
  unfold UsbJtag.processReceivedData.
  destruct (mDataCallback tr) as [cb|]; [|reflexivity].
  destruct (UsbJtag.read _ _) as [[n buffer'] h].
  destruct (_ >? 0); [|reflexivity].
  rewrite invoke_time. reflexivity.
Qed.

(** C5. [SEND_INTERVAL_US] is 20 ms.  A tick entered before the
    next-permitted-send time does nothing in its send phase.  After a
    successful [sendImpl] the next-permitted-send time is the clock reading
    taken after the call plus [SEND_INTERVAL_US].  Hence, for a channel whose
    receive poll leaves that time alone and a clock that does not run
    backwards, whenever a tick of a run calls [sendImpl] successfully, every
    later tick that calls [sendImpl] is entered at least 20 ms after the
    moment that success was recorded; two queued packets and an adapter that
    always succeeds are one such run. *)
Theorem rate_limit D (Ad : Adapter D) :
  SEND_INTERVAL_US = 20 * 1000
  /\ (forall now now_sent (t : Transport D),
         0 <= now < 2 ^ 63 ->
         now < mNextSendTime t ->
         processSendQueue now now_sent t = (t, []))
  /\ (forall now now_sent (t : Transport D) p,
         0 <= now_sent ->
         now_sent + SEND_INTERVAL_US < 2 ^ 63 ->
         In (EvSendImpl p ESP_OK) (snd (processSendQueue now now_sent t)) ->
         mNextSendTime (fst (processSendQueue now now_sent t))
         = now_sent + SEND_INTERVAL_US)
  /\ ((forall t : Transport D,
          mNextSendTime (fst (processReceivedData t)) = mNextSendTime t) ->
      forall ks (t : Transport D) l1 ki evsi l2 kj evsj l3 pi pj rj,
        clock_ok 0 ks ->
        snd (run ks t) = l1 ++ (ki, evsi) :: l2 ++ (kj, evsj) :: l3 ->
        In (EvSendImpl pi ESP_OK) evsi ->
        In (EvSendImpl pj rj) evsj ->
        now_sent ki + SEND_INTERVAL_US <= now kj).
Proof.
  split; [reflexivity|]. split; [|split].
  - intros now now_sent t Hnow Hlt.
    apply processSendQueue_too_early.
    rewrite to_u64_small by assumption. assumption.
  - intros now now_sent t p H0 Hmax Hin.
    apply sendImpl_calls_In in Hin.
    destruct (processSendQueue_cases now now_sent t)
      as [[Hnone _] | (p1 & r1 & Hone & _ & Heq)].
    + rewrite Hnone in Hin. contradiction.
    + rewrite Hone in Hin. destruct Hin as [Hin|[]].
      inversion Hin; subst p1 r1. cbn in Heq. rewrite Heq.
      apply to_u64_small. unfold SEND_INTERVAL_US in *. lia.
  - intros Hrecv ks t l1 ki evsi l2 kj evsj l3 pi pj rj Hclock Hlog Hi Hj.
    exact (@run_spacing D Ad Hrecv ks 0 t (Z.le_refl 0) Hclock
             l1 ki evsi l2 kj evsj l3 pi pj rj Hlog Hi Hj).
Qed.

Lemma rate_limit_witness :
  let t := mock_transport [] false [example_packet; other_packet] in
  let ks := [mkTick 0 100; mkTick 10000 10000; mkTick 20100 20150] in
  snd (run ks t)
  = [(mkTick 0 100, [EvSendImpl example_packet ESP_OK]);
     (mkTick 10000 10000, []);
     (mkTick 20100 20150, [EvSendImpl other_packet ESP_OK])]
  /\ processSendQueue 10000 10000 (fst (loop (mkTick 0 100) t))
     = (fst (loop (mkTick 0 100) t), [])
  /\ mNextSendTime (fst (processSendQueue 0 100 t)) = 100 + SEND_INTERVAL_US
  /\ 100 + SEND_INTERVAL_US <= 20100.
Proof.
  intros t ks.
  pose proof (@rate_limit Mock.t Mock_Adapter) as (_ & Hskip & Hadv & Hgap).
  split; [reflexivity|]. split; [|split].
  - apply Hskip; [lia|]. vm_compute. reflexivity.
  - apply (Hadv 0 100 t example_packet); [lia | vm_compute; reflexivity |].
    left. reflexivity.
  - apply (Hgap (fun _ => eq_refl) ks t
             [] (mkTick 0 100) [EvSendImpl example_packet ESP_OK]
             [(mkTick 10000 10000, [])]
             (mkTick 20100 20150) [EvSendImpl other_packet ESP_OK] []
             example_packet other_packet ESP_OK).
    + cbn. unfold SEND_INTERVAL_US. lia.
    + reflexivity.
    + left. reflexivity.
    + left. reflexivity.
Defined.

(** ** Serial transports: sending *)

Lemma isTemporary_ESP_FAIL : isTemporary ESP_FAIL = false.
Proof. reflexivity. Qed.

Lemma Uart_sendImpl_eq Hw `{Uart.Driver Hw} (tr : Transport (Uart.t Hw))
  (p : Packet) :
  Uart.sendImpl tr p
  = (if fst (Uart.write tr (span (buffer p) (size p))) =? size p
     then ESP_OK else ESP_FAIL,
     p,
     Uart.set_hw (snd (Uart.write tr (span (buffer p) (size p))))
                 (derived tr)).
Proof.
  unfold Uart.sendImpl.
  destruct (Uart.write tr (span (buffer p) (size p))) as [written h].
  cbn [fst snd]. destruct (written =? size p); reflexivity.
Qed.

Lemma UsbJtag_sendImpl_eq Hw `{UsbJtag.Driver Hw}
  (tr : Transport (UsbJtag.t Hw)) (p : Packet) :
  UsbJtag.sendImpl tr p
  = (if fst (UsbJtag.write tr (span (buffer p) (size p))) =? size p
     then ESP_OK else ESP_FAIL,
     p,
     UsbJtag.mk (snd (UsbJtag.write tr (span (buffer p) (size p))))).
Proof.
  unfold UsbJtag.sendImpl.
  destruct (UsbJtag.write tr (span (buffer p) (size p))) as [written h].
  cbn [fst snd]. destruct (written =? size p); reflexivity.
Qed.

(** For an initialised transport and a non-empty span, [Uart::write]
    returns what the driver reports, a negative report counting as 0. *)
Lemma Uart_write_driver Hw `{Uart.Driver Hw} (tr : Transport (Uart.t Hw))
  (data : list byte) :
  isInitialized tr = true -> data <> [] ->
  let len := fst (Uart.uart_write_bytes (Uart.mUartNum (derived tr)) data
                    (Z.of_nat (length data)) (Uart.hw (derived tr))) in
  - 2 ^ 31 <= len < 2 ^ 31 ->
  fst (Uart.write tr data) = Z.max 0 len.
Proof.
  intros Hi Hdata len Hint. subst len. unfold Uart.write. rewrite Hi.
  destruct data as [|b data]; [congruence|]. cbn [negb orb length Nat.eqb].
  destruct (Uart.uart_write_bytes _ _ _ _) as [len h]. cbn [fst] in *.
  destruct (Z.ltb_spec len 0); cbn [fst]; [lia|].
  unfold to_u32. rewrite Z.mod_small by lia. lia.
Qed.

Lemma UsbJtag_write_driver Hw `{UsbJtag.Driver Hw}
  (tr : Transport (UsbJtag.t Hw)) (data : list byte) :
  isInitialized tr = true -> data <> [] ->
  let len := fst (UsbJtag.usb_serial_jtag_write_bytes
                    data (Z.of_nat (length data))
                    (UsbJtag.hw (derived tr))) in
  - 2 ^ 31 <= len < 2 ^ 31 ->
  fst (UsbJtag.write tr data) = Z.max 0 len.
Proof.
  intros Hi Hdata len Hint. subst len. unfold UsbJtag.write. rewrite Hi.
  destruct data as [|b data]; [congruence|]. cbn [negb orb length Nat.eqb].
  destruct (UsbJtag.usb_serial_jtag_write_bytes _ _ _) as [len h].
  cbn [fst] in *.
  destruct (Z.ltb_spec len 0); cbn [fst]; [lia|].
  unfold to_u32. rewrite Z.mod_small by lia. lia.
Qed.

(** C9. [ESP_FAIL] is not a temporary error.  [Uart::sendImpl] and
    [UsbJtag::sendImpl] return [ESP_OK] exactly when their [write] reports
    all [packet.size] bytes written, and [ESP_FAIL] otherwise, leaving the
    packet as it was.  So in the dispatch loop a short or failed serial write
    is fatal: the packet is not put back into the queue (and the error
    handler, if bound, is told [ESP_FAIL]). *)
Theorem serial_send_failure_is_fatal :
  isTemporary ESP_FAIL = false
  /\ (forall Hw (Dr : Uart.Driver Hw) (tr : Transport (Uart.t Hw)) p,
         let written := fst (Uart.write tr (span (buffer p) (size p))) in
         (fst (fst (Uart.sendImpl tr p)) = ESP_OK <-> written = size p)
         /\ (written <> size p -> fst (fst (Uart.sendImpl tr p)) = ESP_FAIL)
         /\ snd (fst (Uart.sendImpl tr p)) = p)
  /\ (forall Hw (Dr : UsbJtag.Driver Hw) (tr : Transport (UsbJtag.t Hw)) p,
         let written := fst (UsbJtag.write tr (span (buffer p) (size p))) in
         (fst (fst (UsbJtag.sendImpl tr p)) = ESP_OK <-> written = size p)
         /\ (written <> size p ->
             fst (fst (UsbJtag.sendImpl tr p)) = ESP_FAIL)
         /\ snd (fst (UsbJtag.sendImpl tr p)) = p)
  /\ (forall Hw (Dr : Uart.Driver Hw) now now_sent
             (t : Transport (Uart.t Hw)) p q,
         mNextSendTime t <= to_u64 now ->
         mSendQueue t = p :: q ->
         fst (Uart.write (set_mSendQueue q t) (span (buffer p) (size p)))
         <> size p ->
         let r := processSendQueue now now_sent t in
         mSendQueue (fst r) = q
         /\ sendImpl_calls (snd r) = [(p, ESP_FAIL)]
         /\ error_reports (snd r)
            = (if mErrorCallback t then [(p, ESP_FAIL)] else []))
  /\ (forall Hw (Dr : UsbJtag.Driver Hw) now now_sent
             (t : Transport (UsbJtag.t Hw)) p q,
         mNextSendTime t <= to_u64 now ->
         mSendQueue t = p :: q ->
         fst (UsbJtag.write (set_mSendQueue q t) (span (buffer p) (size p)))
         <> size p ->
         let r := processSendQueue now now_sent t in
         mSendQueue (fst r) = q
         /\ sendImpl_calls (snd r) = [(p, ESP_FAIL)]
         /\ error_reports (snd r)
            = (if mErrorCallback t then [(p, ESP_FAIL)] else [])).
Proof.
  split; [reflexivity|]. split; [|split; [|split]].
  - intros Hw Dr tr p written. subst written.
    rewrite Uart_sendImpl_eq. cbn [fst snd].
    destruct (Z.eqb_spec (fst (Uart.write tr (span (buffer p) (size p))))
                (size p)) as [Heq|Hne].
    + repeat split; auto. intros Hne. contradiction.
    + repeat split; auto; [discriminate | intros Heq; contradiction].
  - intros Hw Dr tr p written. subst written.
    rewrite UsbJtag_sendImpl_eq. cbn [fst snd].
    destruct (Z.eqb_spec (fst (UsbJtag.write tr (span (buffer p) (size p))))
                (size p)) as [Heq|Hne].
    + repeat split; auto. intros Hne. contradiction.
    + repeat split; auto; [discriminate | intros Heq; contradiction].
  - intros Hw Dr now now_sent t p q Hdue Hq Hshort r. subst r.
    assert (Hs : sendImpl (set_mSendQueue q t) p
                 = (ESP_FAIL, p,
                    Uart.set_hw
                      (snd (Uart.write (set_mSendQueue q t)
                              (span (buffer p) (size p))))
                      (derived (set_mSendQueue q t)))).
    { cbn [sendImpl Uart_Adapter]. rewrite Uart_sendImpl_eq.
      apply Z.eqb_neq in Hshort. rewrite Hshort. reflexivity. }
    rewrite (@processSendQueue_fatal _ _ now now_sent t p p q ESP_FAIL _
               Hdue Hq Hs); [|discriminate|reflexivity].
    cbn [fst snd].
    repeat split; destruct (mErrorCallback t); reflexivity.
  - intros Hw Dr now now_sent t p q Hdue Hq Hshort r. subst r.
    assert (Hs : sendImpl (set_mSendQueue q t) p
                 = (ESP_FAIL, p,
                    UsbJtag.mk
                      (snd (UsbJtag.write (set_mSendQueue q t)
                              (span (buffer p) (size p)))))).
    { cbn [sendImpl UsbJtag_Adapter]. rewrite UsbJtag_sendImpl_eq.
      apply Z.eqb_neq in Hshort. rewrite Hshort. reflexivity. }
    rewrite (@processSendQueue_fatal _ _ now now_sent t p p q ESP_FAIL _
               Hdue Hq Hs); [|discriminate|reflexivity].
    cbn [fst snd].
    repeat split; destruct (mErrorCallback t); reflexivity.
Qed.

Lemma serial_send_failure_is_fatal_witness :
  let t := uart_transport (mkWire 0 []) None [example_packet] in
  let u := usb_transport (mkWire 0 []) None [example_packet] in
  (mSendQueue (fst (processSendQueue 0 0 t)) = []
   /\ error_reports (snd (processSendQueue 0 0 t))
      = [(example_packet, ESP_FAIL)])
  /\ (mSendQueue (fst (processSendQueue 0 0 u)) = []
      /\ error_reports (snd (processSendQueue 0 0 u))
         = [(example_packet, ESP_FAIL)]).
Proof.
  intros t u.
  destruct serial_send_failure_is_fatal as (_ & _ & _ & Huart & Husb).
  split.
  - destruct (Huart Wire _ 0 0 t example_packet []) as (Hq & _ & He).
    + vm_compute. discriminate.
    + reflexivity.
    + vm_compute. discriminate.
    + split; [exact Hq | exact He].
  - destruct (Husb Wire _ 0 0 u example_packet []) as (Hq & _ & He).
    + vm_compute. discriminate.
    + reflexivity.
    + vm_compute. discriminate.
    + split; [exact Hq | exact He].
Defined.

(** ** Serial transports: receiving *)

Lemma Packet_zero_buffer_length : Z.of_nat (length (buffer Packet_zero)) = 517.
Proof. reflexivity. Qed.

Lemma narrowed_size (len : Z) :
  0 <= len <= 517 -> to_u16 (to_u32 len) = len.
Proof.
  intros Hlen. unfold to_u16, to_u32.
  rewrite (Z.mod_small len (2 ^ 32)) by lia.
  apply Z.mod_small. lia.
Qed.

(** What [Uart::read] returns into the fresh packet's buffer is between 0
    and 517 when the driver never reports more bytes than it was asked
    for. *)
Lemma Uart_read_bound Hw `{Uart.Driver Hw} (tr : Transport (Uart.t Hw)) :
  (forall port buf n h,
      0 <= n -> fst (fst (Uart.uart_read_bytes port buf n h)) <= n) ->
  let n := fst (fst (Uart.read tr (buffer Packet_zero))) in
  to_u16 n = n /\ 0 <= n <= 517.
Proof.
  intros Hdrv. cbv zeta. unfold Uart.read.
  destruct (negb (isInitialized tr) || _); [cbn; lia|].
  rewrite Packet_zero_buffer_length.
  specialize (Hdrv (Uart.mUartNum (derived tr)) (buffer Packet_zero) 517
                (Uart.hw (derived tr)) ltac:(lia)).
  destruct (Uart.uart_read_bytes _ _ _ _) as [[len buffer'] h].
  cbn [fst] in *.
  destruct (Z.ltb_spec len 0); cbn [fst]; [cbn; lia|].
  rewrite narrowed_size by lia.
  unfold to_u32. rewrite Z.mod_small; lia.
Qed.

Lemma UsbJtag_read_bound Hw `{UsbJtag.Driver Hw}
  (tr : Transport (UsbJtag.t Hw)) :
  (forall buf n h,
      0 <= n ->
      fst (fst (UsbJtag.usb_serial_jtag_read_bytes buf n h)) <= n) ->
  let n := fst (fst (UsbJtag.read tr (buffer Packet_zero))) in
  to_u16 n = n /\ 0 <= n <= 517.
Proof.
  intros Hdrv. cbv zeta. unfold UsbJtag.read.
  destruct (negb (isInitialized tr) || _); [cbn; lia|].
  rewrite Packet_zero_buffer_length.
  specialize (Hdrv (buffer Packet_zero) 517 (UsbJtag.hw (derived tr))
                ltac:(lia)).
  destruct (UsbJtag.usb_serial_jtag_read_bytes _ _ _) as [[len buffer'] h].
  cbn [fst] in *.
  destruct (Z.ltb_spec len 0); cbn [fst]; [cbn; lia|].
  rewrite narrowed_size by lia.
  unfold to_u32. rewrite Z.mod_small; lia.
Qed.

(** C10. Given drivers that never report more bytes read than the length
    they were asked for (here 517, the size of the packet buffer), every packet [Uart::processReceivedData] or
    [UsbJtag::processReceivedData] hands to the receive handler has
    [0 < size <= 517] (so [isValid] holds) and [id = 0]. *)
Theorem serial_receive_delivers_valid :
  (forall Hw (Dr : Uart.Driver Hw) (tr : Transport (Uart.t Hw)),
      (forall port buf n h,
          0 <= n -> fst (fst (Uart.uart_read_bytes port buf n h)) <= n) ->
      forall p, In p (snd (Uart.processReceivedData tr)) ->
                0 < size p <= 517 /\ isValid p = true /\ id p = 0)
  /\
  (forall Hw (Dr : UsbJtag.Driver Hw) (tr : Transport (UsbJtag.t Hw)),
      (forall buf n h,
          0 <= n ->
          fst (fst (UsbJtag.usb_serial_jtag_read_bytes buf n h)) <= n) ->
      forall p, In p (snd (UsbJtag.processReceivedData tr)) ->
                0 < size p <= 517 /\ isValid p = true /\ id p = 0).
Proof.
  split.
  - intros Hw Dr tr Hdrv p. unfold Uart.processReceivedData.
    destruct (mDataCallback tr) as [cb|]; [|intros []].
    destruct (Uart.available tr) as [avail h0].
    destruct (avail =? 0); [intros []|].
    match goal with |- context [Uart.read ?tr1 _] =>
      pose proof (Uart_read_bound tr1 Hdrv) as [Hn Hbound];
      destruct (Uart.read tr1 (buffer Packet_zero)) as [[n buffer'] h]
    end.
    cbn [fst size id] in *.
    destruct (Z.gtb_spec (to_u16 n) 0) as [Hpos|Hzero]; [|intros []].
    cbn [invoke snd]. intros [<-|[]]. cbn [size id].
    rewrite Hn in *.
    assert (Hsize : 0 < n <= 517) by lia.
    split; [exact Hsize|]. split; [|reflexivity].
    apply isValid_sizes. exact Hsize.
  - intros Hw Dr tr Hdrv p. unfold UsbJtag.processReceivedData.
    destruct (mDataCallback tr) as [cb|]; [|intros []].
    pose proof (UsbJtag_read_bound tr Hdrv) as [Hn Hbound].
    destruct (UsbJtag.read tr (buffer Packet_zero)) as [[n buffer'] h].
    cbn [fst size id] in *.
    destruct (Z.gtb_spec (to_u16 n) 0) as [Hpos|Hzero]; [|intros []].
    cbn [invoke snd]. intros [<-|[]]. cbn [size id].
    rewrite Hn in *.
    assert (Hsize : 0 < n <= 517) by lia.
    split; [exact Hsize|]. split; [|reflexivity].
    apply isValid_sizes. exact Hsize.
Qed.

Lemma wire_read_bound (buf : list byte) (n : Z) (w : Wire) :
  0 <= n -> fst (fst (wire_read buf n w)) <= n.
Proof.
  intros Hn. unfold wire_read. cbn [fst].
  pose proof (firstn_le_length (Z.to_nat n) (rx_pending w)). lia.
Qed.

Lemma serial_receive_delivers_valid_witness :
  let echo : PacketCallback := fun p => [p] in
  let w := mkWire 517 [x01; x02; x03] in
  let ok := fun p => 0 < size p <= 517 /\ isValid p = true /\ id p = 0 in
  (map size (snd (Uart.processReceivedData (uart_transport w (Some echo) [])))
   = [3]
   /\ Forall ok
        (snd (Uart.processReceivedData (uart_transport w (Some echo) []))))
  /\
  (map size (snd (UsbJtag.processReceivedData
                    (usb_transport w (Some echo) [])))
   = [3]
   /\ Forall ok
        (snd (UsbJtag.processReceivedData (usb_transport w (Some echo) [])))).
Proof.
  intros echo w ok.
  destruct serial_receive_delivers_valid as [Huart Husb].
  split; (split; [reflexivity|]); apply Forall_forall; intros p Hin.
  - apply (Huart Wire _ (uart_transport w (Some echo) [])); [|exact Hin].
    intros port buf n h. apply wire_read_bound.
  - apply (Husb Wire _ (usb_transport w (Some echo) [])); [|exact Hin].
    intros buf n h. apply wire_read_bound.
Defined.

(** ** Packet: payload round trip and clearing *)

(** X1. After a successful [setPayload(data, len)] the packet passes
    [isValid] whatever it held before, and its payload, the first [size]
    bytes of the buffer, is exactly the first [len] bytes of [data]. *)
Theorem setPayload_round_trip (p : Packet) (d : list byte) (len : Z) :
  0 < len <= 517 -> (Z.to_nat len <= length d)%nat ->
  let p' := snd (setPayload (Some d) len p) in
  isValid p' = true
  /\ span (buffer p') (size p') = firstn (Z.to_nat len) d.
Proof.
  intros Hlen Hd p'. subst p'. unfold setPayload, MAX_MTU.
  replace (len =? 0) with false by (symmetry; apply Z.eqb_neq; lia).
  replace (len >? 517) with false
    by (symmetry; rewrite Z.gtb_ltb; apply Z.ltb_ge; lia).
  cbn [orb snd].
  assert (Hsize : to_u16 len = len) by (apply Z.mod_small; lia).
  split.
  - apply isValid_sizes. cbn [size]. rewrite Hsize. exact Hlen.
  - unfold span. cbn [size buffer]. rewrite Hsize.
    apply memcpy_firstn. exact Hd.
Qed.

Lemma setPayload_round_trip_witness :
  let p := snd (setPayload (Some [x68; x69; x21]) 2 Packet_zero) in
  isValid p = true /\ span (buffer p) (size p) = [x68; x69].
Proof.
  apply (@setPayload_round_trip Packet_zero [x68; x69; x21] 2).
  - lia.
  - cbn. lia.
Defined.

Lemma skipn_repeat_byte (n m : nat) (b : byte) :
  skipn n (repeat b m) = repeat b (m - n).
Proof.
  revert m. induction n as [|n IH]; intros m.
  - rewrite Nat.sub_0_r. reflexivity.
  - destruct m as [|m]; [reflexivity|]. cbn. apply IH.
Qed.

(** X2. [clear()] always leaves a packet that fails [isValid], with id 0 and
    a buffer of the same length holding only zero bytes, and clearing twice
    is clearing once.  A payload set after [clear()] is followed by zero
    bytes only: nothing of what the buffer held before survives. *)
Theorem clear_wipes (p : Packet) :
  isValid (clear p) = false
  /\ id (clear p) = 0
  /\ length (buffer (clear p)) = length (buffer p)
  /\ Forall (fun b => b = x00) (buffer (clear p))
  /\ clear (clear p) = clear p
  /\ (forall d len,
         0 < len <= 517 ->
         (Z.to_nat len <= length d)%nat ->
         buffer (snd (setPayload (Some d) len (clear p)))
         = firstn (Z.to_nat len) d
             ++ repeat x00 (length (buffer p) - Z.to_nat len)).
Proof.
  repeat split.
  - cbn. apply repeat_length.
  - cbn. apply Forall_forall. intros b Hb. apply repeat_spec in Hb.
    exact Hb.
  - unfold clear. cbn [buffer]. rewrite repeat_length. reflexivity.
  - intros d len Hlen Hd. unfold setPayload, MAX_MTU.
    replace (len =? 0) with false by (symmetry; apply Z.eqb_neq; lia).
    replace (len >? 517) with false
      by (symmetry; rewrite Z.gtb_ltb; apply Z.ltb_ge; lia).
    cbn [orb snd buffer clear]. unfold memcpy.
    rewrite skipn_repeat_byte. reflexivity.
Qed.

Lemma clear_wipes_witness :
  let p := snd (setPayload (Some [xff; xff; xff; xff]) 4
                  {| id := 9; size := 0; buffer := repeat x00 6 |}) in
  buffer (snd (setPayload (Some [x01; x02]) 2 (clear p)))
  = [x01; x02; x00; x00; x00; x00].
Proof.
  intros p.
  destruct (clear_wipes p) as (_ & _ & _ & _ & _ & Hset).
  rewrite (Hset [x01; x02] 2).
  - reflexivity.
  - lia.
  - cbn. lia.
Defined.

(** ** Transport: queue bookkeeping *)

Lemma clearQueue_loop_count (q : BufferedQueue.t) : forall count : Z,
  0 <= count -> count + Z.of_nat (length q) < 2 ^ 32 ->
  clearQueue_loop q count = (count + Z.of_nat (length q), []).
Proof.
  induction q as [|p q IH]; intros count H0 Hmax.
  - cbn. rewrite Z.add_0_r. reflexivity.
  - cbn [clearQueue_loop]. cbn [length] in *.
    assert (Hw : to_u32 (count + 1) = count + 1)
      by (unfold to_u32; apply Z.mod_small; lia).
    rewrite Hw, IH by lia. f_equal. lia.
Qed.

(** X3. [clearQueue()] returns exactly the number of packets that were
    waiting (what [getQueueSize()] reported) and leaves the queue empty and
    everything else as it was, running or not; a second [clearQueue()]
    returns 0.  (The count is a [size_t]; the queue holds fewer than 2^32
    entries.) *)
Theorem clearQueue_count D (t : Transport D) :
  Z.of_nat (length (mSendQueue t)) < 2 ^ 32 ->
  clearQueue t = (getQueueSize t, set_mSendQueue [] t)
  /\ getQueueSize (snd (clearQueue t)) = 0
  /\ fst (clearQueue (snd (clearQueue t))) = 0.
Proof.
  intros Hmax. unfold clearQueue, getQueueSize, BufferedQueue.waiting.
  rewrite clearQueue_loop_count by lia. cbn. auto.
Qed.

Lemma clearQueue_count_witness :
  let t := mock_transport [] false [example_packet; other_packet] in
  clearQueue t = (2, set_mSendQueue [] t).
Proof.
  intros t.
  destruct (@clearQueue_count _ t) as [Hcount _]; [cbn; lia | exact Hcount].
Defined.

(** X4. [send] touches nothing but the queue, never removes or reorders what
    is queued, and its result tells the size of the queue afterwards: one
    more entry exactly when it returns [ESP_OK], the same queue otherwise. *)
Theorem send_only_appends D (p : Packet) (t : Transport D) :
  let ret := fst (send p t) in
  let t' := snd (send p t) in
  mThread t' = mThread t
  /\ mDataCallback t' = mDataCallback t
  /\ mErrorCallback t' = mErrorCallback t
  /\ mNextSendTime t' = mNextSendTime t
  /\ mIsInitialized t' = mIsInitialized t
  /\ derived t' = derived t
  /\ mSendQueue t' = mSendQueue t ++ (if ret =? ESP_OK then [p] else [])
  /\ getQueueSize t' = getQueueSize t + (if ret =? ESP_OK then 1 else 0).
Proof.
  cbv zeta. unfold send, getQueueSize, BufferedQueue.waiting,
    BufferedQueue.send.
  destruct (negb (isInitialized t) || negb (isValid p)).
  - cbn. rewrite app_nil_r, Z.add_0_r. repeat split.
  - destruct (length (mSendQueue t) <? MAX_QUEUE_SIZE)%nat; cbn.
    + rewrite length_app. cbn. repeat split. lia.
    + rewrite app_nil_r, Z.add_0_r. repeat split.
Qed.

Lemma send_isInitialized D (p : Packet) (t : Transport D) :
  isInitialized (snd (send p t)) = isInitialized t.
Proof.
  unfold send.
  destruct (negb (isInitialized t) || negb (isValid p)); [reflexivity|].
  destruct (BufferedQueue.send _ _ _); reflexivity.
Qed.

Lemma send_all_queue D (ps : list Packet) : forall (t : Transport D),
  isInitialized t = true ->
  mSendQueue (snd (send_all ps t))
  = mSendQueue t
      ++ firstn (MAX_QUEUE_SIZE - length (mSendQueue t)) (filter isValid ps).
Proof.
  induction ps as [|p ps IH]; intros t Hi.
  - cbn. rewrite firstn_nil, app_nil_r. reflexivity.
  - cbn [send_all filter].
    pose proof (send_isInitialized p t) as Hi1. rewrite Hi in Hi1.
    specialize (IH (snd (send p t)) Hi1).
    destruct (send p t) as [ret t1] eqn:Hsend. cbn [snd] in *.
    destruct (send_all ps t1) as [rets t2]. cbn [snd] in *.
    rewrite IH. clear IH.
    destruct (isValid p) eqn:Hv.
    + destruct (Nat.lt_ge_cases (length (mSendQueue t)) MAX_QUEUE_SIZE)
        as [Hroom|Hfull].
      * rewrite (send_accepted t p Hi Hv Hroom) in Hsend.
        inversion Hsend; subst. cbn [mSendQueue set_mSendQueue].
        rewrite length_app. cbn [length].
        replace (MAX_QUEUE_SIZE - length (mSendQueue t))%nat
          with (S (MAX_QUEUE_SIZE - (length (mSendQueue t) + 1)))%nat by lia.
        cbn [firstn]. rewrite <- app_assoc. reflexivity.
      * rewrite (send_full t p Hi Hv Hfull) in Hsend.
        inversion Hsend; subst.
        replace (MAX_QUEUE_SIZE - length (mSendQueue t1))%nat with 0%nat
          by lia.
        reflexivity.
    + rewrite (send_rejected t p (or_intror Hv)) in Hsend.
      inversion Hsend; subst. reflexivity.
Qed.

Lemma send_all_not_initialized D (ps : list Packet) (t : Transport D) :
  isInitialized t = false ->
  send_all ps t = (map (fun _ => ESP_ERR_INVALID_ARG) ps, t).
Proof.
  intros Hi. induction ps as [|p ps IH]; [reflexivity|].
  cbn [send_all map]. rewrite (send_rejected t p (or_introl Hi)).
  rewrite IH. reflexivity.
Qed.

(** X5. Back-pressure is drop-newest: on an initialised, running transport a
    series of [send] calls leaves the queue as it was, followed by the valid
    packets of the series in call order, cut off where the queue reaches
    [MAX_QUEUE_SIZE]; invalid packets and those arriving at a full queue are
    the only ones lost.  So the queue then holds the smaller of
    [MAX_QUEUE_SIZE] and the old size plus the number of valid packets. *)
Theorem send_all_drop_newest D (ps : list Packet) (t : Transport D) :
  isInitialized t = true ->
  (length (mSendQueue t) <= MAX_QUEUE_SIZE)%nat ->
  mSendQueue (snd (send_all ps t))
  = mSendQueue t
      ++ firstn (MAX_QUEUE_SIZE - length (mSendQueue t)) (filter isValid ps)
  /\ length (mSendQueue (snd (send_all ps t)))
     = Nat.min MAX_QUEUE_SIZE
         (length (mSendQueue t) + length (filter isValid ps)).
Proof.
  intros Hi Hbound.
  pose proof (send_all_queue ps t Hi) as Hq.
  split; [exact Hq|].
  rewrite Hq, length_app, length_firstn. lia.
Qed.

Lemma send_all_drop_newest_witness :
  let t := mock_transport [] false (repeat example_packet 15) in
  mSendQueue (snd (send_all [Packet_zero; other_packet; example_packet] t))
  = repeat example_packet 15 ++ [other_packet]
  /\ length (mSendQueue
               (snd (send_all [Packet_zero; other_packet; example_packet] t)))
     = 16%nat.
Proof.
  intros t.
  apply (@send_all_drop_newest _
           [Packet_zero; other_packet; example_packet] t).
  - reflexivity.
  - cbn. unfold MAX_QUEUE_SIZE. lia.
Defined.

(** ** Transport: what one send phase can do *)

(** The two shapes of [processSendQueue]: nothing at all, or the head of the
    queue through [sendImpl]. *)
Lemma processSendQueue_shape D `{Adapter D} (now now_sent : Z)
  (t : Transport D) :
  ((to_u64 now < mNextSendTime t \/ mSendQueue t = [])
   /\ processSendQueue now now_sent t = (t, []))
  \/ (exists p q ret p' d,
         mNextSendTime t <= to_u64 now
         /\ mSendQueue t = p :: q
         /\ sendImpl (set_mSendQueue q t) p = (ret, p', d)
         /\ processSendQueue now now_sent t
            = if ret =? ESP_OK then
                (set_mNextSendTime (to_u64 (now_sent + SEND_INTERVAL_US))
                   (set_derived d (set_mSendQueue q t)),
                 [EvSendImpl p ret])
              else
                (fst (handleSendError p' ret
                        (set_derived d (set_mSendQueue q t))),
                 EvSendImpl p ret
                   :: snd (handleSendError p' ret
                             (set_derived d (set_mSendQueue q t))))).
Proof.
  destruct (Z.lt_ge_cases (to_u64 now) (mNextSendTime t)) as [Hearly|Hdue].
  - left. split; [left; assumption|].
    apply processSendQueue_too_early. assumption.
  - destruct (mSendQueue t) as [|p q] eqn:Hq.
    + left. split; [right; reflexivity|].
      apply processSendQueue_empty. assumption.
    + right.
      destruct (sendImpl (set_mSendQueue q t) p) as [[ret p'] d] eqn:Hs.
      exists p, q, ret, p', d. repeat split; try assumption.
      apply processSendQueue_open; assumption.
Qed.

Lemma handleSendError_shape D (p : Packet) (err : esp_err_t)
  (t : Transport D) :
  snd (handleSendError p err t)
  = (if mErrorCallback t then [EvError p err] else [])
  /\ mThread (fst (handleSendError p err t)) = mThread t
  /\ mDataCallback (fst (handleSendError p err t)) = mDataCallback t
  /\ mErrorCallback (fst (handleSendError p err t)) = mErrorCallback t
  /\ mIsInitialized (fst (handleSendError p err t)) = mIsInitialized t
  /\ derived (fst (handleSendError p err t)) = derived t
  /\ (length (mSendQueue (fst (handleSendError p err t)))
      <= S (length (mSendQueue t)))%nat.
Proof.
  unfold handleSendError, BufferedQueue.send.
  destruct (isTemporary err); [|cbn; repeat split; lia].
  destruct (length (mSendQueue t) <? MAX_QUEUE_SIZE)%nat; cbn;
    repeat split; try lia.
  rewrite length_app. cbn. lia.
Qed.

(** X6. One send phase, for any channel: [sendImpl] is called exactly when
    the next-permitted-send time has come and the queue is not empty, then
    once and with the head of the queue; the queue never gets longer; the
    error handler is called at most once and only when the [sendImpl] call
    of this very phase failed and a handler is bound; the
    next-permitted-send time moves only when the call returned [ESP_OK], so
    a failure, transient or fatal, does not delay the next attempt; thread
    state, callbacks and the initialised flag are left alone. *)
Theorem processSendQueue_one_call D `{Adapter D} (now now_sent : Z)
  (t : Transport D) :
  let r := processSendQueue now now_sent t in
  (sendImpl_calls (snd r) = []
   <-> to_u64 now < mNextSendTime t \/ mSendQueue t = [])
  /\ (forall p ret,
         In (p, ret) (sendImpl_calls (snd r)) ->
         sendImpl_calls (snd r) = [(p, ret)]
         /\ hd_error (mSendQueue t) = Some p)
  /\ (length (mSendQueue (fst r)) <= length (mSendQueue t))%nat
  /\ (forall p err,
         In (p, err) (error_reports (snd r)) ->
         error_reports (snd r) = [(p, err)]
         /\ mErrorCallback t = true
         /\ err <> ESP_OK
         /\ exists p0, sendImpl_calls (snd r) = [(p0, err)])
  /\ ((forall p, ~ In (p, ESP_OK) (sendImpl_calls (snd r))) ->
      mNextSendTime (fst r) = mNextSendTime t)
  /\ mThread (fst r) = mThread t
  /\ mDataCallback (fst r) = mDataCallback t
  /\ mErrorCallback (fst r) = mErrorCallback t
  /\ mIsInitialized (fst r) = mIsInitialized t.
Proof.
  cbv zeta.
  destruct (processSendQueue_shape now now_sent t)
    as [[Hidle Heq] | (p & q & ret & p' & d & Hdue & Hq & Hs & Heq)];
    rewrite Heq; clear Heq.
  - cbn. repeat split; auto; try contradiction.
  - set (t1 := set_derived d (set_mSendQueue q t)).
    assert (Hbusy : ~ (to_u64 now < mNextSendTime t \/ mSendQueue t = [])).
    { intros [Hlt | Hnil]; [lia | rewrite Hq in Hnil; discriminate]. }
    destruct (Z.eqb_spec ret ESP_OK) as [Hok|Hfail].
    + subst ret. cbn [fst snd sendImpl_calls error_reports flat_map app].
      rewrite Hq. cbn [length hd_error].
      split. { split; [discriminate | intros [Hlt|Hnil]; [lia|discriminate]]. }
      split. { intros p1 r1 [Hc|[]]. inversion Hc; subst. auto. }
      split. { cbn. lia. }
      split. { intros p1 e1 []. }
      split. { intros Hnone. exfalso. apply (Hnone p). left. reflexivity. }
      repeat split.
    + destruct (handleSendError_shape p' ret t1)
        as (Hev & Hth & Hdc & Hec & Hinit & _ & Hlen).
      pose proof (handleSendError_time p' ret t1) as Htime.
      destruct (handleSendError p' ret t1) as [t2 evs].
      cbn [fst snd] in *. subst evs.
      rewrite Hth, Hdc, Hec, Hinit, Htime, Hq.
      subst t1. cbn [mErrorCallback mSendQueue set_derived set_mSendQueue
                       mNextSendTime mThread mDataCallback mIsInitialized]
        in *.
      cbn [hd_error length].
      destruct (mErrorCallback t);
        cbn [sendImpl_calls error_reports flat_map app].
      * split. { split; [discriminate | intros [Hlt|Hnil]; [lia|discriminate]]. }
        split. { intros p1 r1 [Hc|[]]. inversion Hc; subst. auto. }
        split. { lia. }
        split.
        { intros p1 e1 [Hc|[]]. inversion Hc; subst.
          repeat split; auto. exists p. reflexivity. }
        repeat split.
      * split. { split; [discriminate | intros [Hlt|Hnil]; [lia|discriminate]]. }
        split. { intros p1 r1 [Hc|[]]. inversion Hc; subst. auto. }
        split. { lia. }
        split. { intros p1 e1 []. }
        repeat split.
Qed.

Lemma processSendQueue_one_call_witness :
  let t := mock_transport [ESP_FAIL] true [example_packet; other_packet] in
  let r := processSendQueue 0 5 t in
  hd_error (mSendQueue t) = Some example_packet
  /\ error_reports (snd r) = [(example_packet, ESP_FAIL)]
  /\ mNextSendTime (fst r) = mNextSendTime t.
Proof.
  intros t r.
  destruct (processSendQueue_one_call 0 5 t)
    as (_ & Hcall & _ & Herr & Htime & _).
  split; [|split].
  - apply (Hcall example_packet ESP_FAIL). left. reflexivity.
  - apply (Herr example_packet ESP_FAIL). left. reflexivity.
  - apply Htime. intros p [Hc|[]]. vm_compute in Hc. discriminate Hc.
Defined.

(** ** Transport: order and pace of dispatch *)

Lemma processSendQueue_frame D `{Adapter D} (now now_sent : Z)
  (t : Transport D) :
  mThread (fst (processSendQueue now now_sent t)) = mThread t
  /\ mDataCallback (fst (processSendQueue now now_sent t)) = mDataCallback t.
Proof.
  destruct (processSendQueue_shape now now_sent t)
    as [[_ Heq] | (p & q & ret & p' & d & _ & _ & _ & Heq)];
    rewrite Heq; [split; reflexivity|].
  destruct (ret =? ESP_OK); [split; reflexivity|].
  destruct (handleSendError_shape p' ret (set_derived d (set_mSendQueue q t)))
    as (_ & Hth & Hdc & _).
  cbn [fst]. rewrite Hth, Hdc. split; reflexivity.
Qed.

(** One send phase either calls nothing and keeps the queue, or calls
    [sendImpl] on the head; after a success the queue is what was behind
    the head and the next send is due [SEND_INTERVAL_US] later. *)
Lemma processSendQueue_step D `{Adapter D} (now now_sent : Z)
  (t : Transport D) :
  let r := processSendQueue now now_sent t in
  (sendImpl_calls (snd r) = []
   /\ mSendQueue (fst r) = mSendQueue t
   /\ mNextSendTime (fst r) = mNextSendTime t
   /\ (mNextSendTime t <= to_u64 now -> mSendQueue t = []))
  \/ (exists p q ret,
         mSendQueue t = p :: q
         /\ sendImpl_calls (snd r) = [(p, ret)]
         /\ (ret = ESP_OK ->
             mSendQueue (fst r) = q
             /\ mNextSendTime (fst r)
                = to_u64 (now_sent + SEND_INTERVAL_US))).
Proof.
  cbv zeta.
  destruct (processSendQueue_shape now now_sent t)
    as [[Hidle Heq] | (p & q & ret & p' & d & _ & Hq & _ & Heq)];
    rewrite Heq.
  - left. cbn. repeat split.
    intros Hdue. destruct Hidle as [Hlt|Hnil]; [lia|assumption].
  - right. exists p, q, ret. split; [assumption|].
    destruct (Z.eqb_spec ret ESP_OK) as [Hok|Hfail].
    + cbn. auto.
    + cbn [fst snd]. split.
      * pose proof (handleSendError_no_sendImpl p' ret
                      (set_derived d (set_mSendQueue q t))) as Hnone.
        unfold sendImpl_calls in *. cbn [flat_map app]. rewrite Hnone.
        reflexivity.
      * intros Hok. contradiction.
Qed.

Lemma events_cons (k : Tick) (evs : list Event)
  (log : list (Tick * list Event)) :
  events ((k, evs) :: log) = evs ++ events log.
Proof. reflexivity. Qed.

Lemma spaced_earlier (due due' : Z) (ks : list Tick) :
  due' <= due -> spaced due ks -> spaced due' ks.
Proof.
  intros Hle. destruct ks as [|k ks]; [auto|].
  cbn. intros (H1 & H2 & H3 & H4). repeat split; try assumption; lia.
Qed.

Section SendOnly.

Context {D : Type} {Ad : Adapter D}.

(** The receive poll of the channel does nothing while no receive handler
    is bound. *)
Hypothesis quiet_receive : forall t : Transport D,
  mDataCallback t = None -> processReceivedData t = (t, []).

Lemma loop_quiet (k : Tick) (t : Transport D) :
  mDataCallback t = None ->
  loop k t = processSendQueue (now k) (now_sent k) t.
Proof.
  intros Hcb. unfold loop.
  destruct (processSendQueue_frame (now k) (now_sent k) t) as [_ Hdc].
  destruct (processSendQueue (now k) (now_sent k) t) as [t1 evs].
  cbn [fst] in Hdc. rewrite quiet_receive by congruence.
  cbn. rewrite app_nil_r. reflexivity.
Qed.

(** X7. Dispatch is first-in first-out and loses nothing.  For a channel
    whose receive poll does nothing while no receive handler is bound (the
    UART and USB-JTAG channels are such), on a transport without a receive
    handler: if every [sendImpl] call of a run returned [ESP_OK], the
    packets passed to [sendImpl], in call order, followed by what is still
    queued at the end, are exactly the queue the run started with. *)
Theorem dispatch_is_fifo (ks : list Tick) : forall t : Transport D,
  mDataCallback t = None ->
  Forall (fun c => snd c = ESP_OK) (sendImpl_calls (events (snd (run ks t)))) ->
  map fst (sendImpl_calls (events (snd (run ks t))))
    ++ mSendQueue (fst (run ks t))
  = mSendQueue t.
Proof.
  induction ks as [|k ks IH]; intros t Hcb Hok; [reflexivity|].
  destruct (mThread t) eqn:Hrun;
    [rewrite run_not_running by assumption; reflexivity|].
  rewrite run_cons in * by assumption. cbn [fst snd] in *.
  rewrite events_cons, sendImpl_calls_app in *.
  rewrite loop_quiet in * by assumption.
  apply Forall_app in Hok. destruct Hok as [Hok1 Hok2].
  destruct (processSendQueue_frame (now k) (now_sent k) t) as [_ Hdc].
  specialize (IH (fst (processSendQueue (now k) (now_sent k) t))
                (eq_trans Hdc Hcb) Hok2).
  rewrite map_app, <- app_assoc, IH.
  destruct (processSendQueue_step (now k) (now_sent k) t)
    as [(Hnone & Hq & _) | (p & q & ret & Hq & Hone & Hafter)].
  - rewrite Hnone, Hq. reflexivity.
  - rewrite Hone in *. inversion Hok1 as [|c l Hret _]; subst. cbn in Hret.
    destruct (Hafter Hret) as [Hq' _]. rewrite Hq', Hq. reflexivity.
Qed.

(** X8. Dispatch keeps pace with a slow enough clock.  Under the same
    conditions, on a running transport, if every tick starts no earlier than
    the next-permitted-send time left by the tick before it (ticks at least
    [SEND_INTERVAL_US] apart) and every [sendImpl] call returned [ESP_OK],
    then each tick sends one packet for as long as there is one: [n] ticks
    send the first [n] packets of the queue in order and leave the rest. *)
Theorem dispatch_keeps_pace (ks : list Tick) : forall t : Transport D,
  mDataCallback t = None ->
  mThread t = Thread.RUNNING ->
  spaced (mNextSendTime t) ks ->
  Forall (fun c => snd c = ESP_OK) (sendImpl_calls (events (snd (run ks t)))) ->
  map fst (sendImpl_calls (events (snd (run ks t))))
  = firstn (length ks) (mSendQueue t)
  /\ mSendQueue (fst (run ks t)) = skipn (length ks) (mSendQueue t).
Proof.
  induction ks as [|k ks IH]; intros t Hcb Hrun Hsp Hok; [split; reflexivity|].
  rewrite run_cons in * by assumption. cbn [fst snd] in *.
  rewrite events_cons, sendImpl_calls_app in *.
  rewrite loop_quiet in * by assumption.
  apply Forall_app in Hok. destruct Hok as [Hok1 Hok2].
  destruct (processSendQueue_frame (now k) (now_sent k) t) as [Hth Hdc].
  destruct Hsp as (Hdue & Hnow & Hmax & Hrest).
  assert (Hu : to_u64 (now k) = now k)
    by (apply to_u64_small; unfold SEND_INTERVAL_US in *; lia).
  destruct (processSendQueue_step (now k) (now_sent k) t)
    as [(Hnone & Hq & Htime & Hempty) | (p & q & ret & Hq & Hone & Hafter)].
  - rewrite Hu in Hempty. specialize (Hempty Hdue).
    assert (Hsp' : spaced
                     (mNextSendTime
                        (fst (processSendQueue (now k) (now_sent k) t))) ks).
    { rewrite Htime. apply (spaced_earlier (due := now_sent k + SEND_INTERVAL_US));
        [unfold SEND_INTERVAL_US; lia | assumption]. }
    destruct (IH _ (eq_trans Hdc Hcb) (eq_trans Hth Hrun) Hsp' Hok2)
      as [IH1 IH2].
    rewrite Hnone. cbn [app]. rewrite IH1, IH2, Hq, Hempty.
    rewrite !firstn_nil, !skipn_nil. auto.
  - rewrite Hone in *. inversion Hok1 as [|c l Hret _]; subst. cbn in Hret.
    destruct (Hafter Hret) as [Hq' Htime].
    assert (Hsp' : spaced
                     (mNextSendTime
                        (fst (processSendQueue (now k) (now_sent k) t))) ks).
    { rewrite Htime, to_u64_small; [assumption|].
      unfold SEND_INTERVAL_US in *. lia. }
    destruct (IH _ (eq_trans Hdc Hcb) (eq_trans Hth Hrun) Hsp' Hok2)
      as [IH1 IH2].
    rewrite map_app, IH1, IH2, Hq', Hq. cbn. auto.
Qed.

End SendOnly.

Lemma Uart_quiet_receive Hw `{Uart.Driver Hw} (tr : Transport (Uart.t Hw)) :
  mDataCallback tr = None -> processReceivedData tr = (tr, []).
Proof.
  intros Hcb. cbn. unfold Uart.processReceivedData. rewrite Hcb.
  reflexivity.
Qed.

Lemma UsbJtag_quiet_receive Hw `{UsbJtag.Driver Hw}
  (tr : Transport (UsbJtag.t Hw)) :
  mDataCallback tr = None -> processReceivedData tr = (tr, []).
Proof.
  intros Hcb. cbn. unfold UsbJtag.processReceivedData. rewrite Hcb.
  reflexivity.
Qed.

Lemma dispatch_is_fifo_witness :
  let t := uart_transport (mkWire 517 []) None
             [example_packet; other_packet; example_packet] in
  let r := run [mkTick 0 1; mkTick 5 6; mkTick 30000 30001] t in
  map fst (sendImpl_calls (events (snd r))) = [example_packet; other_packet]
  /\ map fst (sendImpl_calls (events (snd r))) ++ mSendQueue (fst r)
     = [example_packet; other_packet; example_packet].
Proof.
  intros t r. split; [reflexivity|].
  apply (@dispatch_is_fifo _ _ (@Uart_quiet_receive Wire _)
           [mkTick 0 1; mkTick 5 6; mkTick 30000 30001] t).
  - reflexivity.
  - repeat constructor.
Defined.

Lemma dispatch_keeps_pace_witness :
  let t := usb_transport (mkWire 517 []) None
             [example_packet; other_packet; example_packet] in
  let r := run [mkTick 0 10; mkTick 20010 20020] t in
  map fst (sendImpl_calls (events (snd r))) = [example_packet; other_packet]
  /\ mSendQueue (fst r) = [example_packet].
Proof.
  intros t r.
  apply (@dispatch_keeps_pace _ _ (@UsbJtag_quiet_receive Wire _)
           [mkTick 0 10; mkTick 20010 20020] t).
  - reflexivity.
  - reflexivity.
  - cbn. unfold SEND_INTERVAL_US. lia.
  - repeat constructor.
Defined.

(** ** Transport: what the queue always holds *)

Lemma queue_ok_nil : queue_ok [].
Proof. split; [cbn; unfold MAX_QUEUE_SIZE; lia | constructor]. Qed.

Lemma BufferedQueue_send_ok (item : Packet) (q : BufferedQueue.t) :
  isValid item = true -> queue_ok q ->
  queue_ok (snd (BufferedQueue.send MAX_QUEUE_SIZE item q)).
Proof.
  intros Hv [Hlen Hall]. unfold BufferedQueue.send.
  destruct (Nat.ltb_spec (length q) MAX_QUEUE_SIZE) as [Hroom|Hfull];
    cbn [snd]; [|split; assumption].
  split.
  - rewrite length_app. cbn. lia.
  - apply Forall_app. split; [assumption|]. constructor; [assumption|constructor].
Qed.

Lemma send_queue_ok D (p : Packet) (t : Transport D) :
  queue_ok (mSendQueue t) -> queue_ok (mSendQueue (snd (send p t))).
Proof.
  intros Hok. unfold send.
  destruct (isInitialized t); cbn [negb orb]; [|assumption].
  destruct (isValid p) eqn:Hv; cbn [negb]; [|assumption].
  pose proof (BufferedQueue_send_ok p Hv Hok) as Hq.
  destruct (BufferedQueue.send _ _ _). exact Hq.
Qed.

Lemma invoke_queue_ok D (cb : PacketCallback) (p : Packet)
  (t : Transport D) :
  queue_ok (mSendQueue t) -> queue_ok (mSendQueue (fst (invoke cb p t))).
Proof.
  unfold invoke. cbn [fst]. generalize (cb p) as replies.
  intros replies. revert t.
  induction replies as [|r replies IH]; intros t Hok; [assumption|].
  cbn [fold_left]. apply IH, send_queue_ok. assumption.
Qed.

Lemma Uart_receive_queue_ok Hw `{Uart.Driver Hw}
  (tr : Transport (Uart.t Hw)) :
  queue_ok (mSendQueue tr) ->
  queue_ok (mSendQueue (fst (Uart.processReceivedData tr))).
Proof.
  intros Hok. unfold Uart.processReceivedData.
  destruct (mDataCallback tr) as [cb|]; [|assumption].
  destruct (Uart.available tr) as [avail h0].
  destruct (avail =? 0); [assumption|].
  destruct (Uart.read _ _) as [[n buffer'] h].
  destruct (_ >? 0); [|assumption].
  apply invoke_queue_ok. assumption.
Qed.

Lemma UsbJtag_receive_queue_ok Hw `{UsbJtag.Driver Hw}
  (tr : Transport (UsbJtag.t Hw)) :
  queue_ok (mSendQueue tr) ->
  queue_ok (mSendQueue (fst (UsbJtag.processReceivedData tr))).
Proof.
  intros Hok. unfold UsbJtag.processReceivedData.
  destruct (mDataCallback tr) as [cb|]; [|assumption].
  destruct (UsbJtag.read _ _) as [[n buffer'] h].
  destruct (_ >? 0); [|assumption].
  apply invoke_queue_ok. assumption.
Qed.

Section QueueInvariant.

Context {D : Type} {Ad : Adapter D}.

(** [sendImpl] of the channel leaves the packet it is given as it was. *)
Hypothesis sendImpl_keeps_packet : forall (t : Transport D) (p : Packet),
  snd (fst (sendImpl t p)) = p.

(** The receive poll of the channel keeps the queue within bounds and
    valid. *)
Hypothesis receive_keeps_queue_ok : forall t : Transport D,
  queue_ok (mSendQueue t) ->
  queue_ok (mSendQueue (fst (processReceivedData t))).

Lemma processSendQueue_queue_ok (now now_sent : Z) (t : Transport D) :
  queue_ok (mSendQueue t) ->
  queue_ok (mSendQueue (fst (processSendQueue now now_sent t)))
  /\ Forall (fun c => isValid (fst c) = true)
            (sendImpl_calls (snd (processSendQueue now now_sent t))).
Proof.
  intros Hok.
  destruct (processSendQueue_shape now now_sent t)
    as [[_ Heq] | (p & q & ret & p' & d & _ & Hq & Hs & Heq)];
    rewrite Heq; [split; [assumption|constructor]|].
  pose proof (sendImpl_keeps_packet (set_mSendQueue q t) p) as Hkeep.
  rewrite Hs in Hkeep. cbn in Hkeep. subst p'.
  destruct Hok as [Hlen Hall]. rewrite Hq in Hlen, Hall.
  inversion Hall as [|? ? Hp Hrest]; subst. cbn [length] in Hlen.
  assert (Hq' : queue_ok q) by (split; [lia|assumption]).
  destruct (ret =? ESP_OK).
  - cbn. split; [assumption|]. constructor; [assumption|constructor].
  - cbn [fst snd]. split.
    + unfold handleSendError. destruct (isTemporary ret); [|assumption].
      pose proof (BufferedQueue_send_ok p Hp Hq') as Hsent.
      cbn [mSendQueue set_derived set_mSendQueue].
      destruct (BufferedQueue.send _ _ _). exact Hsent.
    + pose proof (handleSendError_no_sendImpl p ret
                    (set_derived d (set_mSendQueue q t))) as Hnone.
      unfold sendImpl_calls in *. cbn [flat_map app]. rewrite Hnone.
      constructor; [assumption|constructor].
Qed.

(** For such a channel a queue of at most [MAX_QUEUE_SIZE] valid packets
    stays one through any run of the dispatch loop, and every packet the
    run passes to [sendImpl] is valid. *)
Lemma run_queue_ok (ks : list Tick) : forall t : Transport D,
  queue_ok (mSendQueue t) ->
  queue_ok (mSendQueue (fst (run ks t)))
  /\ Forall (fun c => isValid (fst c) = true)
            (sendImpl_calls (events (snd (run ks t)))).
Proof.
  induction ks as [|k ks IH]; intros t Hok; [split; [assumption|constructor]|].
  destruct (mThread t) eqn:Hrun;
    [rewrite run_not_running by assumption; split; [assumption|constructor]|].
  rewrite run_cons by assumption. cbn [fst snd].
  rewrite events_cons, sendImpl_calls_app.
  assert (Hloop : queue_ok (mSendQueue (fst (loop k t)))
                  /\ Forall (fun c => isValid (fst c) = true)
                            (sendImpl_calls (snd (loop k t)))).
  { unfold loop.
    destruct (processSendQueue_queue_ok (now k) (now_sent k) t Hok)
      as [Hq1 Hc1].
    destruct (processSendQueue (now k) (now_sent k) t) as [t1 evs1].
    pose proof (receive_keeps_queue_ok t1 Hq1) as Hq2.
    destruct (processReceivedData t1) as [t2 received].
    cbn [fst snd] in *. split; [assumption|].
    rewrite sendImpl_calls_app, sendImpl_calls_received, app_nil_r.
    assumption. }
  destruct Hloop as [Hq Hc].
  destruct (IH _ Hq) as [IHq IHc].
  split; [assumption|]. apply Forall_app. split; assumption.
Qed.

End QueueInvariant.

Lemma Uart_sendImpl_keeps_packet Hw `{Uart.Driver Hw}
  (tr : Transport (Uart.t Hw)) (p : Packet) :
  snd (fst (sendImpl tr p)) = p.
Proof. cbn. rewrite Uart_sendImpl_eq. reflexivity. Qed.

Lemma UsbJtag_sendImpl_keeps_packet Hw `{UsbJtag.Driver Hw}
  (tr : Transport (UsbJtag.t Hw)) (p : Packet) :
  snd (fst (sendImpl tr p)) = p.
Proof. cbn. rewrite UsbJtag_sendImpl_eq. reflexivity. Qed.

(** X9. On the UART and the USB-JTAG channel, whatever their drivers and
    the receive handler do: starting from a queue of at most
    [MAX_QUEUE_SIZE] valid packets (an empty one, say), any alternation of
    [send] calls and dispatch runs leaves such a queue again, and [sendImpl]
    only ever sees packets with [0 < size <= 517], so the span it writes
    never reaches past the 517-byte buffer. *)
Theorem serial_queue_ok :
  (forall Hw (Dr : Uart.Driver Hw) (steps : list (list Packet * list Tick))
          (tr : Transport (Uart.t Hw)),
      queue_ok (mSendQueue tr) ->
      let final :=
        fold_left (fun t step =>
                     fst (run (snd step) (snd (send_all (fst step) t))))
                  steps tr in
      queue_ok (mSendQueue final)
      /\ forall ks, Forall (fun c => 0 < size (fst c) <= 517)
                           (sendImpl_calls (events (snd (run ks final)))))
  /\
  (forall Hw (Dr : UsbJtag.Driver Hw)
          (steps : list (list Packet * list Tick))
          (tr : Transport (UsbJtag.t Hw)),
      queue_ok (mSendQueue tr) ->
      let final :=
        fold_left (fun t step =>
                     fst (run (snd step) (snd (send_all (fst step) t))))
                  steps tr in
      queue_ok (mSendQueue final)
      /\ forall ks, Forall (fun c => 0 < size (fst c) <= 517)
                           (sendImpl_calls (events (snd (run ks final))))).
Proof.
  assert (Hsends : forall D ps (t : Transport D),
             queue_ok (mSendQueue t) ->
             queue_ok (mSendQueue (snd (send_all ps t)))).
  { intros D ps. induction ps as [|p ps IH]; intros t Hok; [assumption|].
    cbn [send_all]. pose proof (send_queue_ok p t Hok) as H1.
    destruct (send p t) as [ret t1]. cbn [snd] in H1.
    specialize (IH t1 H1). destruct (send_all ps t1). exact IH. }
  assert (Hvalid : forall l : list (Packet * esp_err_t),
             Forall (fun c => isValid (fst c) = true) l ->
             Forall (fun c => 0 < size (fst c) <= 517) l).
  { intros l. apply Forall_impl. intros c Hc.
    unfold isValid, MAX_MTU in Hc. apply andb_true_iff in Hc.
    destruct Hc as [H1 H2]. apply Z.gtb_lt in H1. apply Z.leb_le in H2.
    lia. }
  split.
  - intros Hw Dr steps. induction steps as [|[ps ks0] steps IH]; intros tr Hok.
    + cbn. split; [assumption|]. intros ks. apply Hvalid.
      apply (@run_queue_ok _ _ (@Uart_sendImpl_keeps_packet Hw _)
               (@Uart_receive_queue_ok Hw _) ks tr Hok).
    + cbn [fold_left fst snd]. apply IH.
      apply (@run_queue_ok _ _ (@Uart_sendImpl_keeps_packet Hw _)
               (@Uart_receive_queue_ok Hw _)).
      apply Hsends. assumption.
  - intros Hw Dr steps. induction steps as [|[ps ks0] steps IH]; intros tr Hok.
    + cbn. split; [assumption|]. intros ks. apply Hvalid.
      apply (@run_queue_ok _ _ (@UsbJtag_sendImpl_keeps_packet Hw _)
               (@UsbJtag_receive_queue_ok Hw _) ks tr Hok).
    + cbn [fold_left fst snd]. apply IH.
      apply (@run_queue_ok _ _ (@UsbJtag_sendImpl_keeps_packet Hw _)
               (@UsbJtag_receive_queue_ok Hw _)).
      apply Hsends. assumption.
Qed.

Lemma serial_queue_ok_witness :
  let echo : PacketCallback := fun p => [p; Packet_zero] in
  let tr := uart_transport (mkWire 0 [x01; x02]) (Some echo) [] in
  let us := usb_transport (mkWire 9 [x01]) (Some echo) [] in
  let steps := [([example_packet; Packet_zero], [mkTick 0 1; mkTick 2 3]);
                (repeat other_packet 20, [mkTick 4 5])] in
  queue_ok
    (mSendQueue
       (fold_left (fun t step =>
                     fst (run (snd step) (snd (send_all (fst step) t))))
                  steps tr))
  /\ queue_ok
       (mSendQueue
          (fold_left (fun t step =>
                        fst (run (snd step) (snd (send_all (fst step) t))))
                     steps us)).
Proof.
  intros echo tr us steps.
  destruct serial_queue_ok as [Huart Husb].
  split.
  - apply (Huart Wire _ steps tr). exact queue_ok_nil.
  - apply (Husb Wire _ steps us). exact queue_ok_nil.
Defined.

(** ** Serial transports: construction, destruction, direct I/O *)

Lemma start_bind_not_initialized D (cb : option PacketCallback)
  (errorCallback spawned : bool) (t : Transport D) :
  mIsInitialized t = false ->
  isInitialized (snd (start spawned (bind cb errorCallback t))) = false.
Proof.
  intros Hinit. unfold start, bind, isInitialized. cbn [mThread].
  destruct (Thread.quickStart _ _) as [ok s]. cbn. rewrite Hinit.
  reflexivity.
Qed.

Lemma Uart_ctor_install_fresh Hw `{UartSetup Hw} (type : Uart.SerialType)
  (n : Z) (h : Hw) :
  let tr := Uart_ctor_install type n h in
  mThread tr = Thread.NOT_RUNNING /\ mSendQueue tr = []
  /\ mDataCallback tr = None /\ mErrorCallback tr = false
  /\ mNextSendTime tr = 0
  /\ Uart.mType (derived tr) = type /\ Uart.mUartNum (derived tr) = n.
Proof.
  cbv zeta. unfold Uart_ctor_install.
  destruct (uart_driver_install _ _ _ _ _ _) as [ret h'].
  destruct (negb (ret =? ESP_OK)); cbn; repeat split.
Qed.

(** X10. Whatever the driver answers, [Uart::Uart] leaves a transport that
    is not running, with an empty queue, no callbacks and port number 0 for
    [UART0], 1 for [UART1].  If [uart_param_config] fails, no other driver
    call is made and the transport is not marked initialised.  And a
    transport the constructor did not mark initialised refuses every [send]
    with [ESP_ERR_INVALID_ARG], whatever is bound and whether or not
    [start()] succeeds, so its queue stays empty. *)
Theorem Uart_ctor_outcome Hw (Su : UartSetup Hw) (type : Uart.SerialType)
  (config : uart_config_t) (rxPin txPin : option Z) (h : Hw) :
  let tr := Uart_ctor type config rxPin txPin h in
  let port := match type with Uart.UART0 => 0 | Uart.UART1 => 1 end in
  (mThread tr = Thread.NOT_RUNNING /\ mSendQueue tr = []
   /\ mDataCallback tr = None /\ mErrorCallback tr = false
   /\ mNextSendTime tr = 0
   /\ Uart.mType (derived tr) = type /\ Uart.mUartNum (derived tr) = port)
  /\ (fst (uart_param_config port config h) <> ESP_OK ->
      mIsInitialized tr = false
      /\ Uart.hw (derived tr) = snd (uart_param_config port config h))
  /\ (mIsInitialized tr = false ->
      forall cb errorCallback spawned ps,
        let started := snd (start spawned (bind cb errorCallback tr)) in
        send_all ps started
        = (map (fun _ => ESP_ERR_INVALID_ARG) ps, started)
        /\ mSendQueue started = []).
Proof.
  cbv zeta.
  assert (Hport : match type with
                  | Uart.UART0 => UART_NUM_0
                  | Uart.UART1 => UART_NUM_1
                  end = match type with Uart.UART0 => 0 | Uart.UART1 => 1 end)
    by (destruct type; reflexivity).
  assert (Hfresh :
            let tr := Uart_ctor type config rxPin txPin h in
            mThread tr = Thread.NOT_RUNNING /\ mSendQueue tr = []
            /\ mDataCallback tr = None /\ mErrorCallback tr = false
            /\ mNextSendTime tr = 0
            /\ Uart.mType (derived tr) = type
            /\ Uart.mUartNum (derived tr)
               = match type with Uart.UART0 => 0 | Uart.UART1 => 1 end).
  { cbv zeta. unfold Uart_ctor. rewrite Hport.
    destruct (uart_param_config _ config h) as [r1 h1].
    destruct (negb (r1 =? ESP_OK)); [cbn; repeat split|].
    destruct rxPin as [rx|], txPin as [tx|];
      try apply Uart_ctor_install_fresh.
    destruct (uart_set_pin _ _ _ _ _ _) as [r2 h2].
    destruct (negb (r2 =? ESP_OK)); [cbn; repeat split|].
    apply Uart_ctor_install_fresh. }
  split; [exact Hfresh|]. split.
  - unfold Uart_ctor. rewrite Hport.
    destruct (uart_param_config _ config h) as [r1 h1]. cbn [fst snd].
    intros Hfail. apply Z.eqb_neq in Hfail. rewrite Hfail. cbn. auto.
  - intros Hinit cb errorCallback spawned ps.
    pose proof (start_bind_not_initialized cb errorCallback spawned _ Hinit)
      as Hno.
    split; [apply send_all_not_initialized; exact Hno|].
    destruct Hfresh as (_ & Hq & _).
    unfold start, bind. cbn [mThread].
    destruct (Thread.quickStart _ _). cbn. exact Hq.
Qed.

Lemma Uart_ctor_outcome_witness :
  let tr := Uart_ctor Uart.UART1 0 (Some 20) (Some 21) (mkWire 0 []) in
  let started := snd (start true (bind None true tr)) in
  Uart.hw (derived tr) = mkWire 0 []
  /\ send_all [example_packet] started = ([ESP_ERR_INVALID_ARG], started).
Proof.
  intros tr started.
  destruct (@Uart_ctor_outcome Wire Wire_UartSetup Uart.UART1 0 (Some 20)
              (Some 21)
              (mkWire 0 [])) as (_ & Hfail & Hrefuse).
  destruct Hfail as [Hinit Hhw]; [discriminate|].
  split; [exact Hhw|].
  apply (Hrefuse Hinit None true true [example_packet]).
Defined.

(** X11. [UsbJtag::UsbJtag] likewise leaves a transport that is not running,
    with an empty queue and no callbacks; it is marked initialised exactly
    when [usb_serial_jtag_driver_install], asked for buffers of 1024 and
    1536 bytes, returns [ESP_OK]; and if it is not, every [send] is refused
    with [ESP_ERR_INVALID_ARG] whatever is bound and whether or not
    [start()] succeeds. *)
Theorem UsbJtag_ctor_outcome Hw (Su : UsbJtagSetup Hw) (h : Hw) :
  let tr := UsbJtag_ctor h in
  (mThread tr = Thread.NOT_RUNNING /\ mSendQueue tr = []
   /\ mDataCallback tr = None /\ mErrorCallback tr = false
   /\ mNextSendTime tr = 0
   /\ UsbJtag.hw (derived tr) = snd (usb_serial_jtag_driver_install 1024 1536 h))
  /\ (mIsInitialized tr = true
      <-> fst (usb_serial_jtag_driver_install 1024 1536 h) = ESP_OK)
  /\ (mIsInitialized tr = false ->
      forall cb errorCallback spawned ps,
        let started := snd (start spawned (bind cb errorCallback tr)) in
        send_all ps started
        = (map (fun _ => ESP_ERR_INVALID_ARG) ps, started)
        /\ mSendQueue started = []).
Proof.
  cbv zeta. unfold UsbJtag_ctor, USB_JTAG_TX_BUFFER_SIZE,
    USB_JTAG_RX_BUFFER_SIZE.
  destruct (usb_serial_jtag_driver_install 1024 1536 h) as [ret h'].
  cbn [fst snd].
  destruct (Z.eqb_spec ret ESP_OK) as [Hok|Hfail]; cbn [negb].
  - split; [cbn; repeat split|]. split; [cbn; tauto|].
    cbn. intros Hinit. discriminate.
  - split; [cbn; repeat split|]. split.
    + cbn. split; [discriminate|contradiction].
    + intros Hinit cb errorCallback spawned ps.
      pose proof (start_bind_not_initialized cb errorCallback spawned _ Hinit)
        as Hno.
      split; [apply send_all_not_initialized; exact Hno|].
      unfold start, bind. cbn [mThread].
      destruct (Thread.quickStart _ _). reflexivity.
Qed.

Lemma UsbJtag_ctor_outcome_witness :
  let tr := UsbJtag_ctor (mkWire (-1) []) in
  let started := snd (start true (bind None true tr)) in
  send_all [example_packet] started = ([ESP_ERR_INVALID_ARG], started).
Proof.
  intros tr started.
  destruct (@UsbJtag_ctor_outcome Wire _ (mkWire (-1) []))
    as (_ & _ & Hrefuse).
  apply (Hrefuse eq_refl None true true [example_packet]).
Defined.

Lemma Uart_set_hw_same Hw (u : Uart.t Hw) : Uart.set_hw (Uart.hw u) u = u.
Proof. destruct u; reflexivity. Qed.

Lemma UsbJtag_mk_same Hw (u : UsbJtag.t Hw) : UsbJtag.mk (UsbJtag.hw u) = u.
Proof. destruct u; reflexivity. Qed.

(** X12. The direct I/O members of both serial channels go through
    [Transport::isInitialized()], which also asks whether the worker thread
    runs.  So on a transport that is not marked initialised or whose thread
    is not running (before [start()], say), [read], [write], [available]
    and [baudRate] return 0 without any driver call, and so does [write] for
    empty data on any transport.  [sendImpl] then returns [ESP_FAIL] for a
    packet with [size <> 0], and [ESP_OK] for one with [size = 0], in both
    cases leaving packet and peripheral as they were. *)
Theorem serial_io_without_driver_call :
  (forall Hw (Dr : Uart.Driver Hw) (Su : UartSetup Hw)
          (tr : Transport (Uart.t Hw)),
      (mIsInitialized tr = false \/ mThread tr = Thread.NOT_RUNNING ->
       (forall buf, Uart.read tr buf = (0, buf, Uart.hw (derived tr)))
       /\ (forall data, Uart.write tr data = (0, Uart.hw (derived tr)))
       /\ Uart.available tr = (0, Uart.hw (derived tr))
       /\ Uart_baudRate tr = (0, Uart.hw (derived tr))
       /\ (forall p, size p <> 0 ->
                     Uart.sendImpl tr p = (ESP_FAIL, p, derived tr)))
      /\ Uart.write tr [] = (0, Uart.hw (derived tr))
      /\ (forall p, size p = 0 -> Uart.sendImpl tr p = (ESP_OK, p, derived tr)))
  /\
  (forall Hw (Dr : UsbJtag.Driver Hw) (tr : Transport (UsbJtag.t Hw)),
      (mIsInitialized tr = false \/ mThread tr = Thread.NOT_RUNNING ->
       (forall buf, UsbJtag.read tr buf = (0, buf, UsbJtag.hw (derived tr)))
       /\ (forall data, UsbJtag.write tr data = (0, UsbJtag.hw (derived tr)))
       /\ (forall p, size p <> 0 ->
                     UsbJtag.sendImpl tr p = (ESP_FAIL, p, derived tr)))
      /\ UsbJtag.write tr [] = (0, UsbJtag.hw (derived tr))
      /\ (forall p, size p = 0 ->
                    UsbJtag.sendImpl tr p = (ESP_OK, p, derived tr))).
Proof.
  assert (Hoff : forall D (t : Transport D),
             mIsInitialized t = false \/ mThread t = Thread.NOT_RUNNING ->
             isInitialized t = false).
  { intros D t [Hi|Hs]; [|apply isInitialized_not_running; assumption].
    unfold isInitialized. rewrite Hi. reflexivity. }
  split.
  - intros Hw Dr Su tr. split; [|split].
    + intros Hno. apply Hoff in Hno.
      assert (Hwr : forall data,
                 Uart.write tr data = (0, Uart.hw (derived tr))).
      { intros data. unfold Uart.write. rewrite Hno. reflexivity. }
      repeat split.
      * intros buf. unfold Uart.read. rewrite Hno. reflexivity.
      * exact Hwr.
      * unfold Uart.available. rewrite Hno. reflexivity.
      * unfold Uart_baudRate. rewrite Hno. reflexivity.
      * intros p Hsize. unfold Uart.sendImpl. rewrite Hwr.
        replace (0 =? size p) with false
          by (symmetry; apply Z.eqb_neq; lia).
        cbn [negb]. rewrite Uart_set_hw_same. reflexivity.
    + unfold Uart.write. cbn [length Nat.eqb]. rewrite orb_true_r.
      reflexivity.
    + intros p Hsize. unfold Uart.sendImpl, Uart.write, span.
      rewrite Hsize. cbn [Z.to_nat firstn length Nat.eqb].
      rewrite orb_true_r. cbn. rewrite Uart_set_hw_same. reflexivity.
  - intros Hw Dr tr. split; [|split].
    + intros Hno. apply Hoff in Hno.
      assert (Hwr : forall data,
                 UsbJtag.write tr data = (0, UsbJtag.hw (derived tr))).
      { intros data. unfold UsbJtag.write. rewrite Hno. reflexivity. }
      repeat split.
      * intros buf. unfold UsbJtag.read. rewrite Hno. reflexivity.
      * exact Hwr.
      * intros p Hsize. unfold UsbJtag.sendImpl. rewrite Hwr.
        replace (0 =? size p) with false
          by (symmetry; apply Z.eqb_neq; lia).
        cbn [negb]. rewrite UsbJtag_mk_same. reflexivity.
    + unfold UsbJtag.write. cbn [length Nat.eqb]. rewrite orb_true_r.
      reflexivity.
    + intros p Hsize. unfold UsbJtag.sendImpl, UsbJtag.write, span.
      rewrite Hsize. cbn [Z.to_nat firstn length Nat.eqb].
      rewrite orb_true_r. cbn. rewrite UsbJtag_mk_same. reflexivity.
Qed.

Lemma serial_io_without_driver_call_witness :
  let tr := Uart_ctor Uart.UART0 115200 None None (mkWire 0 [x01]) in
  let us := UsbJtag_ctor (mkWire 0 [x01]) in
  mIsInitialized tr = true
  /\ Uart.read tr (repeat x00 8) = (0, repeat x00 8, Uart.hw (derived tr))
  /\ Uart.sendImpl tr example_packet = (ESP_FAIL, example_packet, derived tr)
  /\ mIsInitialized us = true
  /\ UsbJtag.write us [x01] = (0, UsbJtag.hw (derived us)).
Proof.
  intros tr us.
  destruct serial_io_without_driver_call as [Huart Husb].
  destruct (Huart Wire _ _ tr) as (Hoff & _ & _).
  destruct (Husb Wire _ us) as (Hoffu & _ & _).
  destruct (Hoff (or_intror eq_refl)) as (Hread & _ & _ & _ & Hsend).
  destruct (Hoffu (or_intror eq_refl)) as (_ & Hwrite & _).
  split; [reflexivity|]. split; [apply Hread|].
  split; [apply Hsend; discriminate|].
  split; [reflexivity|]. apply Hwrite.
Defined.

(** X13. The destructors uninstall the driver exactly when
    [isInitialized()] holds at that moment: a transport marked initialised
    whose thread still runs gets [uart_driver_delete] (or
    [usb_serial_jtag_driver_uninstall]); one whose thread is not running
    gets no driver call at all, marked initialised or not.  Either way the
    thread is stopped, the receive handler released and the queue left as
    it is. *)
Theorem serial_dtor_outcome :
  (forall Hw (Su : UartSetup Hw) (tr : Transport (Uart.t Hw)),
      let u := derived tr in
      mThread (Uart_dtor tr) = Thread.NOT_RUNNING
      /\ mDataCallback (Uart_dtor tr) = None
      /\ mSendQueue (Uart_dtor tr) = mSendQueue tr
      /\ (isInitialized tr = true ->
          Uart.hw (derived (Uart_dtor tr))
          = snd (uart_driver_delete (Uart.mUartNum u) (Uart.hw u)))
      /\ (mIsInitialized tr = false \/ mThread tr = Thread.NOT_RUNNING ->
          derived (Uart_dtor tr) = u))
  /\
  (forall Hw (Su : UsbJtagSetup Hw) (tr : Transport (UsbJtag.t Hw)),
      let u := derived tr in
      mThread (UsbJtag_dtor tr) = Thread.NOT_RUNNING
      /\ mDataCallback (UsbJtag_dtor tr) = None
      /\ mSendQueue (UsbJtag_dtor tr) = mSendQueue tr
      /\ (isInitialized tr = true ->
          UsbJtag.hw (derived (UsbJtag_dtor tr))
          = snd (usb_serial_jtag_driver_uninstall (UsbJtag.hw u)))
      /\ (mIsInitialized tr = false \/ mThread tr = Thread.NOT_RUNNING ->
          derived (UsbJtag_dtor tr) = u)).
Proof.
  assert (Hoff : forall D (t : Transport D),
             mIsInitialized t = false \/ mThread t = Thread.NOT_RUNNING ->
             isInitialized t = false).
  { intros D t [Hi|Hs]; [|apply isInitialized_not_running; assumption].
    unfold isInitialized. rewrite Hi. reflexivity. }
  split.
  - intros Hw Su tr. cbv zeta. unfold Uart_dtor.
    destruct (isInitialized tr) eqn:Hi; cbn [negb].
    + destruct (uart_driver_delete _ _) as [ret h]. cbn.
      repeat split. intros Hno. apply Hoff in Hno. congruence.
    + cbn. repeat split. intros Hyes. discriminate.
  - intros Hw Su tr. cbv zeta. unfold UsbJtag_dtor.
    destruct (isInitialized tr) eqn:Hi.
    + destruct (usb_serial_jtag_driver_uninstall _) as [ret h]. cbn.
      repeat split. intros Hno. apply Hoff in Hno. congruence.
    + cbn. repeat split. intros Hyes. discriminate.
Qed.

Lemma serial_dtor_outcome_witness :
  let tr := snd (start true
                   (Uart_ctor Uart.UART0 9600 None None (mkWire 0 []))) in
  Uart.hw (derived tr) = mkWire 1 []
  /\ Uart.hw (derived (Uart_dtor tr)) = mkWire 0 []
  /\ derived (Uart_dtor (stop tr)) = derived tr.
Proof.
  intros tr.
  destruct serial_dtor_outcome as [Huart _].
  split; [reflexivity|]. split.
  - destruct (Huart Wire _ tr) as (_ & _ & _ & Hdel & _).
    rewrite Hdel; reflexivity.
  - destruct (Huart Wire _ (stop tr)) as (_ & _ & _ & _ & Hkeep).
    apply Hkeep. right. reflexivity.
Defined.

(** ** Serial transports: replies, read and write counts *)

Lemma isValid_pos (p : Packet) : isValid p = true -> 0 < size p.
Proof.
  unfold isValid. intros Hv. apply andb_true_iff in Hv.
  destruct Hv as [H1 _]. apply Z.gtb_lt in H1. exact H1.
Qed.

Lemma fold_send_all D (ps : list Packet) : forall t : Transport D,
  fold_left (fun t result => snd (send result t)) ps t = snd (send_all ps t).
Proof.
  induction ps as [|p ps IH]; intros t; [reflexivity|].
  cbn [fold_left send_all]. rewrite IH.
  destruct (send p t) as [ret t1]. cbn [snd].
  destruct (send_all ps t1); reflexivity.
Qed.

Lemma send_all_frame D (ps : list Packet) : forall t : Transport D,
  mThread (snd (send_all ps t)) = mThread t
  /\ mNextSendTime (snd (send_all ps t)) = mNextSendTime t
  /\ mDataCallback (snd (send_all ps t)) = mDataCallback t
  /\ derived (snd (send_all ps t)) = derived t.
Proof.
  induction ps as [|p ps IH]; intros t; [repeat split|].
  cbn [send_all].
  assert (Hs : mThread (snd (send p t)) = mThread t
               /\ mNextSendTime (snd (send p t)) = mNextSendTime t
               /\ mDataCallback (snd (send p t)) = mDataCallback t
               /\ derived (snd (send p t)) = derived t).
  { unfold send.
    destruct (negb (isInitialized t) || negb (isValid p)); [repeat split|].
    destruct (BufferedQueue.send _ _ _); repeat split. }
  destruct (send p t) as [ret t1]. cbn [snd] in Hs.
  specialize (IH t1). destruct (send_all ps t1) as [rets t2].
  cbn [snd] in *.
  destruct Hs as (H1 & H2 & H3 & H4), IH as (I1 & I2 & I3 & I4).
  repeat split; congruence.
Qed.

(** What [invoke] leaves behind on an initialised, running transport: the
    handler got the packet, and its valid replies are queued behind what
    was queued, as far as there is room. *)
Lemma invoke_replies D (cb : PacketCallback) (p : Packet) (t : Transport D) :
  isInitialized t = true ->
  snd (invoke cb p t) = [p]
  /\ mSendQueue (fst (invoke cb p t))
     = mSendQueue t
         ++ firstn (MAX_QUEUE_SIZE - length (mSendQueue t))
                   (filter isValid (cb p))
  /\ derived (fst (invoke cb p t)) = derived t.
Proof.
  intros Hi. unfold invoke. cbn [fst snd]. rewrite fold_send_all.
  split; [reflexivity|]. split; [apply send_all_queue; assumption|].
  apply send_all_frame.
Qed.

(** X14. One receive poll of either serial channel hands at most one packet
    to the receive handler.  If it hands none, the send queue is as it was.
    If it hands [p], a handler [cb] is bound and the queue is what it was
    followed by the valid replies of [cb] to [p], in order, as far as they
    fit below [MAX_QUEUE_SIZE]: replies never displace queued packets, and
    invalid or surplus replies are lost without notice. *)
Theorem serial_receive_replies :
  (forall Hw (Dr : Uart.Driver Hw) (tr : Transport (Uart.t Hw)),
      let r := Uart.processReceivedData tr in
      (length (snd r) <= 1)%nat
      /\ (snd r = [] -> mSendQueue (fst r) = mSendQueue tr)
      /\ (forall p, snd r = [p] ->
            exists cb,
              mDataCallback tr = Some cb
              /\ mSendQueue (fst r)
                 = mSendQueue tr
                     ++ firstn (MAX_QUEUE_SIZE - length (mSendQueue tr))
                               (filter isValid (cb p))))
  /\
  (forall Hw (Dr : UsbJtag.Driver Hw) (tr : Transport (UsbJtag.t Hw)),
      let r := UsbJtag.processReceivedData tr in
      (length (snd r) <= 1)%nat
      /\ (snd r = [] -> mSendQueue (fst r) = mSendQueue tr)
      /\ (forall p, snd r = [p] ->
            exists cb,
              mDataCallback tr = Some cb
              /\ mSendQueue (fst r)
                 = mSendQueue tr
                     ++ firstn (MAX_QUEUE_SIZE - length (mSendQueue tr))
                               (filter isValid (cb p)))).
Proof.
  split.
  - intros Hw Dr tr. cbv zeta. unfold Uart.processReceivedData.
    destruct (mDataCallback tr) as [cb|];
      [|cbn; repeat split; [lia | discriminate]].
    destruct (Uart.available tr) as [avail h0].
    destruct (avail =? 0); [cbn; repeat split; [lia | discriminate]|].
    set (tr1 := set_derived (Uart.set_hw h0 (derived tr)) tr).
    destruct (Uart.read tr1 (buffer Packet_zero)) as [[n buffer'] h]
      eqn:Hread.
    cbn [id size].
    destruct (Z.gtb_spec (to_u16 n) 0) as [Hpos|Hzero];
      [|cbn; repeat split; [lia | discriminate]].
    assert (Hi : isInitialized tr1 = true).
    { destruct (isInitialized tr1) eqn:Hi; [reflexivity|].
      unfold Uart.read in Hread. rewrite Hi in Hread. cbn in Hread.
      inversion Hread; subst. cbn in Hpos. lia. }
    match goal with |- context [invoke cb ?pk ?t2] =>
      destruct (@invoke_replies _ cb pk t2 Hi) as (Hdel & Hq & _);
      rewrite Hdel, Hq
    end.
    cbn [length]. split; [lia|]. split; [discriminate|].
    intros p Hp. inversion Hp; subst. exists cb. split; reflexivity.
  - intros Hw Dr tr. cbv zeta. unfold UsbJtag.processReceivedData.
    destruct (mDataCallback tr) as [cb|];
      [|cbn; repeat split; [lia | discriminate]].
    destruct (UsbJtag.read tr (buffer Packet_zero)) as [[n buffer'] h]
      eqn:Hread.
    cbn [id size].
    destruct (Z.gtb_spec (to_u16 n) 0) as [Hpos|Hzero];
      [|cbn; repeat split; [lia | discriminate]].
    assert (Hi : isInitialized tr = true).
    { destruct (isInitialized tr) eqn:Hi; [reflexivity|].
      unfold UsbJtag.read in Hread. rewrite Hi in Hread. cbn in Hread.
      inversion Hread; subst. cbn in Hpos. lia. }
    match goal with |- context [invoke cb ?pk ?t2] =>
      destruct (@invoke_replies _ cb pk t2 Hi) as (Hdel & Hq & _);
      rewrite Hdel, Hq
    end.
    cbn [length]. split; [lia|]. split; [discriminate|].
    intros p Hp. inversion Hp; subst. exists cb. split; reflexivity.
Qed.

Lemma serial_receive_replies_witness :
  let echo : PacketCallback := fun p => [Packet_zero; p; example_packet] in
  let tr := uart_transport (mkWire 517 [x01; x02; x03]) (Some echo)
              (repeat other_packet 15) in
  let r := Uart.processReceivedData tr in
  map size (snd r) = [3]
  /\ map size (mSendQueue (fst r)) = repeat 2 15 ++ [3].
Proof.
  intros echo tr r.
  destruct serial_receive_replies as [Huart _].
  destruct (Huart Wire _ tr) as (_ & _ & Hreply).
  split; [reflexivity|].
  destruct (Hreply (hd Packet_zero (snd r)) eq_refl) as (cb & Hcb & Hq).
  inversion Hcb; subst cb. subst r. rewrite Hq. reflexivity.
Defined.



(** X16. On an initialised, running transport, for a valid packet with its
    517-byte buffer, [sendImpl] of either serial channel returns [ESP_OK]
    exactly when the driver's write call, given the first [size] bytes of
    the buffer, reports [size] bytes written; a smaller count and a
    negative (error) report both give [ESP_FAIL].  (The driver's result is
    an [int].) *)
Theorem serial_sendImpl_driver :
  (forall Hw (Dr : Uart.Driver Hw) (tr : Transport (Uart.t Hw)) p,
      isInitialized tr = true -> isValid p = true ->
      length (buffer p) = 517%nat ->
      let data := firstn (Z.to_nat (size p)) (buffer p) in
      let len := fst (Uart.uart_write_bytes (Uart.mUartNum (derived tr)) data
                        (size p) (Uart.hw (derived tr))) in
      - 2 ^ 31 <= len < 2 ^ 31 ->
      fst (fst (Uart.sendImpl tr p)) = (if len =? size p then ESP_OK
                                        else ESP_FAIL))
  /\
  (forall Hw (Dr : UsbJtag.Driver Hw) (tr : Transport (UsbJtag.t Hw)) p,
      isInitialized tr = true -> isValid p = true ->
      length (buffer p) = 517%nat ->
      let data := firstn (Z.to_nat (size p)) (buffer p) in
      let len := fst (UsbJtag.usb_serial_jtag_write_bytes data (size p)
                        (UsbJtag.hw (derived tr))) in
      - 2 ^ 31 <= len < 2 ^ 31 ->
      fst (fst (UsbJtag.sendImpl tr p)) = (if len =? size p then ESP_OK
                                           else ESP_FAIL)).
Proof.
  assert (Hspan : forall p, isValid p = true -> length (buffer p) = 517%nat ->
             Z.of_nat (length (span (buffer p) (size p))) = size p
             /\ span (buffer p) (size p) <> []).
  { intros p Hv Hb. unfold isValid, MAX_MTU in Hv.
    apply andb_true_iff in Hv. destruct Hv as [H1 H2].
    apply Z.gtb_lt in H1. apply Z.leb_le in H2.
    assert (Hl : Z.of_nat (length (span (buffer p) (size p))) = size p).
    { unfold span. rewrite length_firstn, Hb. lia. }
    split; [exact Hl|]. intros Hnil. rewrite Hnil in Hl. cbn in Hl. lia. }
  split.
  - intros Hw Dr tr p Hi Hv Hb data len Hint. subst data len.
    destruct (Hspan p Hv Hb) as [Hl Hne].
    rewrite Uart_sendImpl_eq. cbn [fst].
    rewrite (Uart_write_driver tr Hi Hne); fold (span (buffer p) (size p));
      rewrite Hl; [|exact Hint].
    fold (span (buffer p) (size p)) in Hint.
    assert (Hpos : 0 < size p) by (apply isValid_pos; assumption).
    destruct (Z.eqb_spec
                (fst (Uart.uart_write_bytes (Uart.mUartNum (derived tr))
                        (span (buffer p) (size p)) (size p)
                        (Uart.hw (derived tr)))) (size p)) as [Heq|Hne'].
    + rewrite Heq. replace (Z.max 0 (size p) =? size p) with true
        by (symmetry; apply Z.eqb_eq; lia). reflexivity.
    + match goal with |- (if ?c then _ else _) = _ =>
        replace c with false by (symmetry; apply Z.eqb_neq; lia)
      end. reflexivity.
  - intros Hw Dr tr p Hi Hv Hb data len Hint. subst data len.
    destruct (Hspan p Hv Hb) as [Hl Hne].
    rewrite UsbJtag_sendImpl_eq. cbn [fst].
    rewrite (UsbJtag_write_driver tr Hi Hne);
      fold (span (buffer p) (size p)); rewrite Hl; [|exact Hint].
    fold (span (buffer p) (size p)) in Hint.
    assert (Hpos : 0 < size p) by (apply isValid_pos; assumption).
    destruct (Z.eqb_spec
                (fst (UsbJtag.usb_serial_jtag_write_bytes
                        (span (buffer p) (size p)) (size p)
                        (UsbJtag.hw (derived tr)))) (size p)) as [Heq|Hne'].
    + rewrite Heq. replace (Z.max 0 (size p) =? size p) with true
        by (symmetry; apply Z.eqb_eq; lia). reflexivity.
    + match goal with |- (if ?c then _ else _) = _ =>
        replace c with false by (symmetry; apply Z.eqb_neq; lia)
      end. reflexivity.
Qed.

Lemma serial_sendImpl_driver_witness :
  let tr := uart_transport (mkWire 517 []) None [] in
  let us := usb_transport (mkWire 0 []) None [] in
  fst (fst (Uart.sendImpl tr other_packet)) = ESP_OK
  /\ fst (fst (UsbJtag.sendImpl us other_packet)) = ESP_FAIL.
Proof.
  intros tr us.
  destruct serial_sendImpl_driver as [Huart Husb].
  split.
  - refine (Huart Wire _ tr other_packet eq_refl eq_refl eq_refl _).
    vm_compute. split; [discriminate | reflexivity].
  - refine (Husb Wire _ us other_packet eq_refl eq_refl eq_refl _).
    vm_compute. split; [discriminate | reflexivity].
Defined.
